(** * ngbla: dense kernels of ngblas.hpp and eigensystem.hpp

    A shallow embedding of the inline entry points of
    [basiclinalg/ngblas.hpp]: the generic vector primitives, the
    table-dispatched matrix-vector and matrix-matrix products, the
    policy layer [NgGEMM] and the row/column scaling adaptor.

    Vectors and matrices of the source are non-owning views (a pointer, a
    size and a stride) over buffers of [double].  The embedding keeps
    that: a view is a record of numbers, and all element data lives in
    one memory [Mem], a map from addresses to elements.  Two views over
    the same addresses alias, as they do in the source.

    The element type is a parameter [T] with its arithmetic; algebraic
    laws are assumed only by the statements that need them and are
    listed there.  Sizes, indices and addresses are natural numbers: the
    [size_t] arithmetic of these routines is [min], a comparison, and
    the last index of a non-empty table. *)

From Stdlib Require Import Arith Bool List Lia ZArith QArith Qcanon Ring.
Import ListNotations.

Set Implicit Arguments.
Local Open Scope nat_scope.

(** ** Views *)

(** [ORDERING] of the source: the template argument that fixes which
    index of a matrix view is contiguous. *)
Inductive ORDERING := RowMajor | ColMajor.

Definition flip_ord (o : ORDERING) : ORDERING :=
  match o with RowMajor => ColMajor | ColMajor => RowMajor end.

(** [FlatVector<T>]: [Size()] packed elements starting at [Data()]. *)
Record FlatVector := mkFlat { fv_size : nat; fv_data : nat }.

(** [SliceVector<T>]: [Size()] elements, [Dist()] apart. *)
Record SliceVector := mkSlice { sv_size : nat; sv_dist : nat; sv_data : nat }.

(** [BareSliceVector<T>]: a strided vector that does not know its size. *)
Record BareSliceVector := mkBareVec { bv_dist : nat; bv_data : nat }.

(** What the generic loops use of a vector view: its size and the
    address of its i-th element ([operator[]]). *)
Class VectorView (V : Type) := {
  Size : V -> nat;
  elem : V -> nat -> nat
}.

#[export] Instance FlatVector_view : VectorView FlatVector :=
  {| Size := fv_size; elem := fun v i => fv_data v + i |}.

#[export] Instance SliceVector_view : VectorView SliceVector :=
  {| Size := sv_size; elem := fun v i => sv_data v + i * sv_dist v |}.

Definition bv_elem (v : BareSliceVector) (i : nat) : nat :=
  bv_data v + i * bv_dist v.

(** [SliceMatrix<T,ord>]: height, width, the distance between two major
    lines and the address of the first element.  The ordering is a
    template argument in the source and an index of the type here. *)
Record SliceMatrix (ord : ORDERING) := mkMat {
  Height : nat;
  Width  : nat;
  Dist   : nat;
  Data   : nat
}.

(** [BareSliceMatrix<T,ord>]: a matrix view without its extents. *)
Record BareSliceMatrix (ord : ORDERING) := mkBare {
  bDist : nat;
  bData : nat
}.

(** The implicit conversion [SliceMatrix -> BareSliceMatrix]. *)
Definition bare {ord} (a : SliceMatrix ord) : BareSliceMatrix ord :=
  mkBare ord (Dist a) (Data a).

(** Address of element (i,j), by ordering. *)
Definition bare_at {ord} (a : BareSliceMatrix ord) (i j : nat) : nat :=
  match ord with
  | RowMajor => bData a + i * bDist a + j
  | ColMajor => bData a + j * bDist a + i
  end.

Definition mat_at {ord} (a : SliceMatrix ord) (i j : nat) : nat :=
  bare_at (bare a) i j.

(** [Trans(a)]: the same buffer read with the two indices exchanged. *)
Definition Trans {ord} (a : SliceMatrix ord) : SliceMatrix (flip_ord ord) :=
  mkMat (flip_ord ord) (Width a) (Height a) (Dist a) (Data a).

Definition bTrans {ord} (a : BareSliceMatrix ord) : BareSliceMatrix (flip_ord ord) :=
  mkBare (flip_ord ord) (bDist a) (bData a).

(** A view is well formed when its major stride is at least its minor
    extent, so that distinct index pairs have distinct addresses. *)
Definition wf_view {ord} (a : SliceMatrix ord) : Prop :=
  match ord with
  | RowMajor => Width a <= Dist a
  | ColMajor => Height a <= Dist a
  end.

(** ** Function-pointer tables *)

(** A table [K tbl[n]] is its [n] slots; indexing at or beyond [n] is
    undefined behaviour in the source and [None] here. *)
Definition at_slot {K : Type} (n : nat) (tbl : nat -> K) (i : nat) : option K :=
  if i <? n then Some (tbl i) else None.

(** ** Element arithmetic *)

(** The element type of the kernels ([double] in the declarations, any
    [T] in the templates) with the operations the loops use. *)
Class Arith (T : Type) := {
  zero : T;
  one  : T;
  add  : T -> T -> T;
  sub  : T -> T -> T;
  mul  : T -> T -> T;
  opp  : T -> T
}.

(** [1/x], used only where a vector of reciprocals is formed. *)
Class Reciprocal (T : Type) := recip : T -> T.

#[export] Instance Z_arith : Arith Z :=
  {| zero := 0%Z; one := 1%Z; add := Z.add; sub := Z.sub; mul := Z.mul; opp := Z.opp |}.

#[export] Instance Qc_arith : Arith Qc :=
  {| zero := 0%Qc; one := 1%Qc; add := Qcplus; sub := Qcminus; mul := Qcmult; opp := Qcopp |}.

#[export] Instance Qc_recip : Reciprocal Qc := Qcinv.

Section Elements.

Context {T : Type} {AT : Arith T}.

(** ** Memory *)

Definition Mem := nat -> T.

Definition upd (m : Mem) (p : nat) (v : T) : Mem :=
  fun q => if q =? p then v else m q.

(** ** Loops over memory that record what they touch *)

Inductive access := Rd (p : nat) | Wr (p : nat).

Definition M (A : Type) : Type := Mem -> A * Mem * list access.

Definition ret {A} (x : A) : M A := fun m => (x, m, []).

Definition bind {A B} (c : M A) (k : A -> M B) : M B :=
  fun m =>
    let '(x, m1, l1) := c m in
    let '(y, m2, l2) := k x m1 in
    (y, m2, l1 ++ l2).

Definition load (p : nat) : M T := fun m => (m p, m, [Rd p]).

Definition store (p : nat) (v : T) : M unit := fun m => (tt, upd m p v, [Wr p]).

(** [for (size_t i : Range(n)) body(i)], i = 0, 1, ..., n-1. *)
Fixpoint for_each (n : nat) (body : nat -> M unit) : M unit :=
  match n with
  | 0 => ret tt
  | S k => bind (for_each k body) (fun _ => body k)
  end.

Definition exec {A} (c : M A) (m : Mem) : Mem := snd (fst (c m)).
Definition trace {A} (c : M A) (m : Mem) : list access := snd (c m).

(** ** Vector primitives (ngblas.hpp, lines 17-47) *)

(** [dest[i] = src[i]] for every i in [Range(dest)]. *)
Definition CopyVector {V} `{VectorView V} (src dest : V) : M unit :=
  for_each (Size dest) (fun i =>
    bind (load (elem src i)) (fun v => store (elem dest i) v)).

(** [dest[i] += alpha*src[i]] for every i in [Range(dest)]; the right
    operand of the compound assignment is evaluated first. *)
Definition AddVector {V} `{VectorView V} (alpha : T) (src dest : V) : M unit :=
  for_each (Size dest) (fun i =>
    bind (load (elem src i)) (fun s =>
    bind (load (elem dest i)) (fun d =>
    store (elem dest i) (add d (mul alpha s))))).

(** ** Plain loops over memory *)

(** One store per index of [cells], in list order.  The stored value
    may read the memory as the loop has left it so far. *)
Definition sweep {I : Type} (cells : list I) (addr : I -> nat)
    (val : I -> Mem -> T) (m : Mem) : Mem :=
  fold_left (fun m' c => upd m' (addr c) (val c m')) cells m.

(** The index pairs of [for i < h: for j < w], in that order. *)
Definition grid (h w : nat) : list (nat * nat) :=
  list_prod (seq 0 h) (seq 0 w).

(** [f 0 + f 1 + ... + f (n-1)], accumulated from zero. *)
Fixpoint sum_to (n : nat) (f : nat -> T) : T :=
  match n with
  | 0 => zero
  | S k => add (sum_to k f) (f k)
  end.

(** ** Kernel signatures (the typedefs of ngblas.hpp) *)

(** A [FlatArray<int>] of indices is the list of its entries.  [pmatmat]
    is not a typedef of the header: it is the signature shared by the
    extern routines [MultABt_intern], [AddABt_intern], [MinusMultABt] and
    [SubABt]. *)

Definition pmult_matvec : Type :=
  BareSliceMatrix RowMajor -> FlatVector -> FlatVector -> Mem -> Mem.

Definition pmultadd_matvec : Type :=
  T -> BareSliceMatrix RowMajor -> FlatVector -> FlatVector -> Mem -> Mem.

Definition pmultadd_mattransvecind : Type :=
  T -> BareSliceMatrix RowMajor -> FlatVector -> FlatVector -> list nat -> Mem -> Mem.

Definition pmultABW : Type :=
  nat -> nat -> nat ->
  BareSliceMatrix RowMajor -> BareSliceMatrix RowMajor -> BareSliceMatrix RowMajor ->
  Mem -> Mem.

Definition pfunc_abt : Type :=
  nat -> nat ->
  BareSliceMatrix RowMajor -> BareSliceMatrix RowMajor -> BareSliceMatrix RowMajor ->
  Mem -> Mem.

Definition pmatmat : Type :=
  SliceMatrix RowMajor -> SliceMatrix RowMajor -> BareSliceMatrix RowMajor -> Mem -> Mem.

(** What ngblas.hpp declares [extern] and leaves to ngblas.cpp: the
    contents of the dispatch tables and the non-inline routines.  The
    array lengths are part of the declarations and are fixed below. *)
Class Ngblas := {
  dispatch_matvec : nat -> pmult_matvec;
  dispatch_addmatvec : nat -> pmultadd_matvec;
  dispatch_mattransvec : nat -> pmult_matvec;
  dispatch_addmattransvec : nat -> pmultadd_matvec;
  MultAddMatTransVecIndirect_intern : pmultadd_mattransvecind;
  dispatch_addmattransvecI : nat -> pmultadd_mattransvecind;
  dispatch_multAB : nat -> pmultABW;
  dispatch_minusmultAB : nat -> pmultABW;
  dispatch_addAB : nat -> pmultABW;
  dispatch_subAB : nat -> pmultABW;
  dispatch_atb : bool -> bool -> nat -> pmultABW;
  dispatch_abt : nat -> pfunc_abt;
  dispatch_addabt : nat -> pfunc_abt;
  MultABt_intern : pmatmat;
  AddABt_intern : pmatmat;
  MinusMultABt : pmatmat;
  SubABt : pmatmat
}.

(** [std::size] of each table, from its declaration. *)
Definition size_dispatch_matvec := 26.
Definition size_dispatch_addmatvec := 25.
Definition size_dispatch_mattransvec := 13.
Definition size_dispatch_addmattransvec := 13.
Definition size_dispatch_addmattransvecI := 25.
Definition size_dispatch_multAB := 14.
Definition size_dispatch_minusmultAB := 14.
Definition size_dispatch_addAB := 14.
Definition size_dispatch_subAB := 14.
Definition size_dispatch_atb := 14.
Definition size_dispatch_abt := 25.
Definition size_dispatch_addabt := 25.

(** A call through slot [i] of a table: fetch the slot and run it on [m]. *)
Definition call_slot {K : Type} (n : nat) (tbl : nat -> K) (i : nat)
    (run : K -> Mem -> Mem) (m : Mem) : option Mem :=
  match at_slot n tbl i with
  | Some f => Some (run f m)
  | None => None
  end.

(** The call [r] goes through slot [min key (len - 1)] of [tbl], and that
    slot exists. *)
Definition clamped_call {K : Type} (len : nat) (tbl : nat -> K) (key : nat)
    (run : K -> Mem -> Mem) (r : Mem -> option Mem) : Prop :=
  let i := Nat.min key (len - 1) in
  i < len /\ at_slot len tbl i = Some (tbl i) /\ forall m, r m = Some (run (tbl i) m).

Section EntryPoints.

Context {L : Ngblas}.

(** ** Matrix-vector entry points (lines 63-121) *)

Definition MultMatVec (a : BareSliceMatrix RowMajor) (x y : FlatVector) : Mem -> option Mem :=
  let dsx := Nat.min (Size x) (size_dispatch_matvec - 1) in
  call_slot size_dispatch_matvec dispatch_matvec dsx (fun f => f a x y).

Definition MultAddMatVec (s : T) (a : BareSliceMatrix RowMajor) (x y : FlatVector)
    : Mem -> option Mem :=
  let dsx := Nat.min (Size x) (size_dispatch_addmatvec - 1) in
  call_slot size_dispatch_addmatvec dispatch_addmatvec dsx (fun f => f s a x y).

Definition MultMatTransVec (a : BareSliceMatrix RowMajor) (x y : FlatVector)
    : Mem -> option Mem :=
  let dsx := Nat.min (Size x) (size_dispatch_mattransvec - 1) in
  call_slot size_dispatch_mattransvec dispatch_mattransvec dsx (fun f => f a x y).

Definition MultAddMatTransVec (s : T) (a : BareSliceMatrix RowMajor) (x y : FlatVector)
    : Mem -> option Mem :=
  let dsx := Nat.min (Size x) (size_dispatch_addmattransvec - 1) in
  call_slot size_dispatch_addmattransvec dispatch_addmattransvec dsx (fun f => f s a x y).

(** The overload for a column-major matrix (line 100). *)
Definition MultAddMatVec_ColMajor (s : T) (a : BareSliceMatrix ColMajor) (x y : FlatVector)
    : Mem -> option Mem :=
  MultAddMatTransVec s (bTrans a) x y.

Definition MultAddMatTransVecIndirect (s : T) (a : BareSliceMatrix RowMajor)
    (x y : FlatVector) (ind : list nat) : Mem -> option Mem :=
  let sy := Size y in
  if sy <=? 24
  then call_slot size_dispatch_addmattransvecI dispatch_addmattransvecI sy
         (fun f => f s a x y ind)
  else fun m => Some (MultAddMatTransVecIndirect_intern s a x y ind m).

(** The dispatch as section 4.2 of the spec words it, keyed by the
    length of the contracted vector [x]; kept apart from the source's
    routine above to compare the two. *)
Definition MultAddMatTransVecIndirect_by_contracted (s : T) (a : BareSliceMatrix RowMajor)
    (x y : FlatVector) (ind : list nat) : Mem -> option Mem :=
  let sx := Size x in
  if sx <=? 24
  then call_slot size_dispatch_addmattransvecI dispatch_addmattransvecI sx
         (fun f => f s a x y ind)
  else fun m => Some (MultAddMatTransVecIndirect_intern s a x y ind m).

(** ** Matrix-matrix entry points (lines 136-242) *)

Definition MultMatMat (a b c : SliceMatrix RowMajor) : Mem -> option Mem :=
  if (Height a =? 0) || (Width b =? 0) then fun m => Some m
  else
    let wa := Nat.min (Width a) (size_dispatch_multAB - 1) in
    call_slot size_dispatch_multAB dispatch_multAB wa
      (fun f => f (Height a) (Width a) (Width b) (bare a) (bare b) (bare c)).

Definition MinusMultAB (a b c : SliceMatrix RowMajor) : Mem -> option Mem :=
  if (Height a =? 0) || (Width b =? 0) then fun m => Some m
  else
    let wa := Nat.min (Width a) (size_dispatch_minusmultAB - 1) in
    call_slot size_dispatch_minusmultAB dispatch_minusmultAB wa
      (fun f => f (Height a) (Width a) (Width b) (bare a) (bare b) (bare c)).

Definition AddAB (a b c : SliceMatrix RowMajor) : Mem -> option Mem :=
  if (Height a =? 0) || (Width b =? 0) then fun m => Some m
  else
    let wa := Nat.min (Width a) (size_dispatch_addAB - 1) in
    call_slot size_dispatch_addAB dispatch_addAB wa
      (fun f => f (Height a) (Width a) (Width b) (bare a) (bare b) (bare c)).

Definition SubAB (a b c : SliceMatrix RowMajor) : Mem -> option Mem :=
  if (Height a =? 0) || (Width b =? 0) then fun m => Some m
  else
    let wa := Nat.min (Width a) (size_dispatch_subAB - 1) in
    call_slot size_dispatch_subAB dispatch_subAB wa
      (fun f => f (Height a) (Width a) (Width b) (bare a) (bare b) (bare c)).

Definition MatMat_AtB (ADD POS : bool) (a b : SliceMatrix RowMajor)
    (c : BareSliceMatrix RowMajor) : Mem -> option Mem :=
  if (Height a =? 0) || (Width b =? 0) then fun m => Some m
  else
    let wa := Nat.min (Width a) (size_dispatch_atb - 1) in
    call_slot size_dispatch_atb (dispatch_atb ADD POS) wa
      (fun f => f (Height a) (Width a) (Width b) (bare a) (bare b) c).

Definition MultAtB (a b : SliceMatrix RowMajor) (c : BareSliceMatrix RowMajor)
    : Mem -> option Mem :=
  MatMat_AtB false true a b c.

Definition MultABt (a b : SliceMatrix RowMajor) (c : BareSliceMatrix RowMajor)
    : Mem -> option Mem :=
  let wa := Width a in
  if wa <=? 24
  then call_slot size_dispatch_abt dispatch_abt wa
         (fun f => f (Height a) (Height b) (bare a) (bare b) c)
  else fun m => Some (MultABt_intern a b c m).

Definition AddABt (a b : SliceMatrix RowMajor) (c : BareSliceMatrix RowMajor)
    : Mem -> option Mem :=
  let wa := Width a in
  if wa <=? 24
  then call_slot size_dispatch_addabt dispatch_addabt wa
         (fun f => f (Height a) (Height b) (bare a) (bare b) c)
  else fun m => Some (AddABt_intern a b c m).

(** ** The policy layer NgGEMM (lines 348-483) *)

(** The unspecialised template: [c = -1*a*b], [c = 1*a*b], [c -= 1*a*b]
    or [c += 1*a*b], evaluated element by element over [c].  The scalar
    is applied to [a] first, as the expression parses. *)
Definition NgGEMM_generic (ADD POS : bool) {orda ordb}
    (a : SliceMatrix orda) (b : SliceMatrix ordb) (c : SliceMatrix RowMajor)
    (m : Mem) : Mem :=
  sweep (grid (Height c) (Width c))
    (fun ij => mat_at c (fst ij) (snd ij))
    (fun ij _ =>
       let i := fst ij in
       let j := snd ij in
       let prod s :=
         sum_to (Width a) (fun p => mul (mul s (m (mat_at a i p))) (m (mat_at b p j))) in
       if negb ADD then
         if negb POS then prod (opp one) else prod one
       else
         if negb POS then sub (m (mat_at c i j)) (prod one)
         else add (m (mat_at c i j)) (prod one))
    m.

(** The overloads with a row-major result: twelve explicit
    specialisations, and the template above for what is left. *)
Definition NgGEMM_rowmajor (ADD POS : bool) {orda ordb}
    : SliceMatrix orda -> SliceMatrix ordb -> SliceMatrix RowMajor -> Mem -> option Mem :=
  match orda as oa, ordb as ob
    return SliceMatrix oa -> SliceMatrix ob -> SliceMatrix RowMajor -> Mem -> option Mem
  with
  | RowMajor, RowMajor => fun a b c =>
      match ADD, POS with
      | false, true => MultMatMat a b c
      | true, true => AddAB a b c
      | true, false => SubAB a b c
      | false, false => MinusMultAB a b c
      end
  | RowMajor, ColMajor => fun a b c =>
      match ADD, POS with
      | false, false => fun m => Some (MinusMultABt a (Trans b) (bare c) m)
      | false, true => MultABt a (Trans b) (bare c)
      | true, false => fun m => Some (SubABt a (Trans b) (bare c) m)
      | true, true => AddABt a (Trans b) (bare c)
      end
  | ColMajor, RowMajor => fun a b c =>
      MatMat_AtB ADD POS (Trans a) b (bare c)
  | ColMajor, ColMajor => fun a b c m =>
      Some (NgGEMM_generic ADD POS a b c m)
  end.

(** [NgGEMM<ADD,POS> (a, b, c)] for either ordering of [c]; a
    column-major result goes through
    [NgGEMM<ADD,POS> (Trans(b), Trans(a), Trans(c))]. *)
Definition NgGEMM (ADD POS : bool) {orda ordb ordc}
    (a : SliceMatrix orda) (b : SliceMatrix ordb)
    : SliceMatrix ordc -> Mem -> option Mem :=
  match ordc as oc return SliceMatrix oc -> Mem -> option Mem with
  | RowMajor => fun c => NgGEMM_rowmajor ADD POS a b c
  | ColMajor => fun c => NgGEMM_rowmajor ADD POS (Trans b) (Trans a) (Trans c)
  end.

End EntryPoints.

(** The laws of a commutative ring that the statements on products
    use. *)
Record Arith_laws : Prop := {
  add_zero_l : forall x : T, add zero x = x;
  add_zero_r : forall x : T, add x zero = x;
  sub_zero_r : forall x : T, sub x zero = x;
  opp_zero : opp zero = (zero : T);
  opp_add : forall x y : T, opp (add x y) = add (opp x) (opp y);
  mul_comm : forall x y : T, mul x y = mul y x;
  mul_zero_l : forall x : T, mul zero x = zero;
  mul_one_l : forall x : T, mul one x = x;
  mul_opp_one_l : forall x : T, mul (opp one) x = opp x;
  mul_opp_l : forall x y : T, mul (opp x) y = opp (mul x y)
}.

(** ** Reference semantics of the kernels *)

(** Modelled from the spec: the bodies of the kernels are in ngblas.cpp
    and not in the header.  Section 4.3 and the comment table above
    [NgGEMM] give the four policies: C = -A*B, C = A*B, C -= A*B and
    C += A*B. *)
Definition gemm_value (ADD POS : bool) (old s : T) : T :=
  match ADD, POS with
  | false, false => opp s
  | false, true => s
  | true, false => sub old s
  | true, true => add old s
  end.

(** Modelled from the spec: a product of an (h x k) by a (k x w) operand
    into an (h x w) result, each operand given by the address of its
    (i,j) element.  Operands are read as they are on entry. *)
Definition gemm_ref (ADD POS : bool) (h w k : nat)
    (fa fb fc : nat -> nat -> nat) (m : Mem) : Mem :=
  sweep (grid h w)
    (fun ij => fc (fst ij) (snd ij))
    (fun ij _ =>
       gemm_value ADD POS (m (fc (fst ij) (snd ij)))
         (sum_to k (fun p => mul (m (fa (fst ij) p)) (m (fb p (snd ij))))))
    m.

(** The result cells are pairwise distinct and none of them is a cell of
    an operand. *)
Definition gemm_pre (h w k : nat) (fa fb fc : nat -> nat -> nat) : Prop :=
  (forall i j i' j', i < h -> j < w -> i' < h -> j' < w ->
     fc i j = fc i' j' -> i = i' /\ j = j') /\
  (forall i j i' p, i < h -> j < w -> i' < h -> p < k -> fc i j <> fa i' p) /\
  (forall i j p j', i < h -> j < w -> p < k -> j' < w -> fc i j <> fb p j').

(** Modelled from the spec (section 4.2): y := A x, or y += s (A x) when
    a scale is given; [fa i j] is the address of the matrix element that
    multiplies x[j] in y[i]. *)
Definition gemv_ref (scale : option T) (fa : nat -> nat -> nat)
    (x y : FlatVector) (m : Mem) : Mem :=
  sweep (seq 0 (Size y)) (elem y)
    (fun i _ =>
       let s := sum_to (Size x) (fun j => mul (m (fa i j)) (m (elem x j))) in
       match scale with
       | None => s
       | Some sc => add (m (elem y i)) (mul sc s)
       end)
    m.

Definition gemv_pre (fa : nat -> nat -> nat) (x y : FlatVector) : Prop :=
  forall i, i < Size y ->
    (forall j, j < Size x -> elem y i <> elem x j) /\
    (forall i' j, i' < Size y -> j < Size x -> elem y i <> fa i' j).

Definition transposed (f : nat -> nat -> nat) : nat -> nat -> nat :=
  fun i j => f j i.

(** Modelled from the spec (section 4.2):
    y[ind[i]] += s * sum_j x[j]*A[j,i], one i after the other. *)
Definition addmattransvecI_ref (s : T) (a : BareSliceMatrix RowMajor)
    (x y : FlatVector) (ind : list nat) (m : Mem) : Mem :=
  sweep (seq 0 (length ind))
    (fun i => elem y (nth i ind 0))
    (fun i m' =>
       add (m' (elem y (nth i ind 0)))
           (mul s (sum_to (Size x) (fun j => mul (m' (elem x j)) (m' (bare_at a j i))))))
    m.

(** Slot [i] of a table whose last index is [last] serves size [n]. *)
Definition slot_covers (last i n : nat) : Prop :=
  (i < last /\ n = i) \/ (i = last /\ last <= n).

(** What the spec asks of ngblas.cpp: every table slot and every extern
    routine agrees with the reference on the sizes it serves, for
    operands that do not overlap the result.  First the matrix-vector
    tables. *)
Record Gemv_spec (L : Ngblas) : Prop := {
  matvec_ok : forall i a x y m, slot_covers (size_dispatch_matvec - 1) i (Size x) ->
    gemv_pre (bare_at a) x y ->
    forall q, dispatch_matvec i a x y m q = gemv_ref None (bare_at a) x y m q;
  addmatvec_ok : forall i s a x y m, slot_covers (size_dispatch_addmatvec - 1) i (Size x) ->
    gemv_pre (bare_at a) x y ->
    forall q, dispatch_addmatvec i s a x y m q = gemv_ref (Some s) (bare_at a) x y m q;
  mattransvec_ok : forall i a x y m, slot_covers (size_dispatch_mattransvec - 1) i (Size x) ->
    gemv_pre (transposed (bare_at a)) x y ->
    forall q, dispatch_mattransvec i a x y m q
              = gemv_ref None (transposed (bare_at a)) x y m q;
  addmattransvec_ok : forall i s a x y m,
    slot_covers (size_dispatch_addmattransvec - 1) i (Size x) ->
    gemv_pre (transposed (bare_at a)) x y ->
    forall q, dispatch_addmattransvec i s a x y m q
              = gemv_ref (Some s) (transposed (bare_at a)) x y m q
}.

(** The indirect variant: table slot [Size y] up to 24, and the
    non-dispatched routine above. *)
Record Indirect_spec (L : Ngblas) : Prop := {
  addmattransvecI_ok : forall s a x y ind m, Size y <= 24 ->
    forall q, dispatch_addmattransvecI (Size y) s a x y ind m q
              = addmattransvecI_ref s a x y ind m q;
  addmattransvecI_intern_ok : forall s a x y ind m, 24 < Size y ->
    forall q, MultAddMatTransVecIndirect_intern s a x y ind m q
              = addmattransvecI_ref s a x y ind m q
}.

(** The matrix-matrix tables and routines. *)
Record Gemm_spec (L : Ngblas) : Prop := {
  multAB_ok : forall i ha wa wb a b c m, slot_covers (size_dispatch_multAB - 1) i wa ->
    gemm_pre ha wb wa (bare_at a) (bare_at b) (bare_at c) ->
    forall q, dispatch_multAB i ha wa wb a b c m q
              = gemm_ref false true ha wb wa (bare_at a) (bare_at b) (bare_at c) m q;
  minusmultAB_ok : forall i ha wa wb a b c m,
    slot_covers (size_dispatch_minusmultAB - 1) i wa ->
    gemm_pre ha wb wa (bare_at a) (bare_at b) (bare_at c) ->
    forall q, dispatch_minusmultAB i ha wa wb a b c m q
              = gemm_ref false false ha wb wa (bare_at a) (bare_at b) (bare_at c) m q;
  addAB_ok : forall i ha wa wb a b c m, slot_covers (size_dispatch_addAB - 1) i wa ->
    gemm_pre ha wb wa (bare_at a) (bare_at b) (bare_at c) ->
    forall q, dispatch_addAB i ha wa wb a b c m q
              = gemm_ref true true ha wb wa (bare_at a) (bare_at b) (bare_at c) m q;
  subAB_ok : forall i ha wa wb a b c m, slot_covers (size_dispatch_subAB - 1) i wa ->
    gemm_pre ha wb wa (bare_at a) (bare_at b) (bare_at c) ->
    forall q, dispatch_subAB i ha wa wb a b c m q
              = gemm_ref true false ha wb wa (bare_at a) (bare_at b) (bare_at c) m q;
  atb_ok : forall ADD POS i ha wa wb a b c m, slot_covers (size_dispatch_atb - 1) i wa ->
    gemm_pre wa wb ha (transposed (bare_at a)) (bare_at b) (bare_at c) ->
    forall q, dispatch_atb ADD POS i ha wa wb a b c m q
              = gemm_ref ADD POS wa wb ha (transposed (bare_at a)) (bare_at b) (bare_at c) m q;
  abt_ok : forall wa ha hb a b c m, wa <= 24 ->
    gemm_pre ha hb wa (bare_at a) (transposed (bare_at b)) (bare_at c) ->
    forall q, dispatch_abt wa ha hb a b c m q
              = gemm_ref false true ha hb wa (bare_at a) (transposed (bare_at b)) (bare_at c) m q;
  addabt_ok : forall wa ha hb a b c m, wa <= 24 ->
    gemm_pre ha hb wa (bare_at a) (transposed (bare_at b)) (bare_at c) ->
    forall q, dispatch_addabt wa ha hb a b c m q
              = gemm_ref true true ha hb wa (bare_at a) (transposed (bare_at b)) (bare_at c) m q;
  MultABt_intern_ok : forall a b c m, 24 < Width a ->
    gemm_pre (Height a) (Height b) (Width a) (mat_at a) (transposed (mat_at b)) (bare_at c) ->
    forall q, MultABt_intern a b c m q
              = gemm_ref false true (Height a) (Height b) (Width a)
                  (mat_at a) (transposed (mat_at b)) (bare_at c) m q;
  AddABt_intern_ok : forall a b c m, 24 < Width a ->
    gemm_pre (Height a) (Height b) (Width a) (mat_at a) (transposed (mat_at b)) (bare_at c) ->
    forall q, AddABt_intern a b c m q
              = gemm_ref true true (Height a) (Height b) (Width a)
                  (mat_at a) (transposed (mat_at b)) (bare_at c) m q;
  MinusMultABt_ok : forall a b c m,
    gemm_pre (Height a) (Height b) (Width a) (mat_at a) (transposed (mat_at b)) (bare_at c) ->
    forall q, MinusMultABt a b c m q
              = gemm_ref false false (Height a) (Height b) (Width a)
                  (mat_at a) (transposed (mat_at b)) (bare_at c) m q;
  SubABt_ok : forall a b c m,
    gemm_pre (Height a) (Height b) (Width a) (mat_at a) (transposed (mat_at b)) (bare_at c) ->
    forall q, SubABt a b c m q
              = gemm_ref true false (Height a) (Height b) (Width a)
                  (mat_at a) (transposed (mat_at b)) (bare_at c) m q
}.

(** ** A library of unrolled kernels *)

(** A table in the style of ngblas.cpp: slot [i] below the last is the
    reference loop with its contraction length fixed to [i]; the last
    slot takes the length from its arguments. *)
Definition fixed_below {K : Type} (last : nat) (fixed : nat -> K) (general : K) (i : nat) : K :=
  if i <? last then fixed i else general.

Definition with_size (n : nat) (x : FlatVector) : FlatVector := mkFlat n (fv_data x).

Definition unrolled : Ngblas := {|
  dispatch_matvec := fixed_below 25
    (fun n a x y => gemv_ref None (bare_at a) (with_size n x) y)
    (fun a x y => gemv_ref None (bare_at a) x y);
  dispatch_addmatvec := fixed_below 24
    (fun n s a x y => gemv_ref (Some s) (bare_at a) (with_size n x) y)
    (fun s a x y => gemv_ref (Some s) (bare_at a) x y);
  dispatch_mattransvec := fixed_below 12
    (fun n a x y => gemv_ref None (transposed (bare_at a)) (with_size n x) y)
    (fun a x y => gemv_ref None (transposed (bare_at a)) x y);
  dispatch_addmattransvec := fixed_below 12
    (fun n s a x y => gemv_ref (Some s) (transposed (bare_at a)) (with_size n x) y)
    (fun s a x y => gemv_ref (Some s) (transposed (bare_at a)) x y);
  MultAddMatTransVecIndirect_intern := addmattransvecI_ref;
  dispatch_addmattransvecI := fun _ => addmattransvecI_ref;
  dispatch_multAB := fixed_below 13
    (fun n ha _ wb a b c => gemm_ref false true ha wb n (bare_at a) (bare_at b) (bare_at c))
    (fun ha wa wb a b c => gemm_ref false true ha wb wa (bare_at a) (bare_at b) (bare_at c));
  dispatch_minusmultAB := fixed_below 13
    (fun n ha _ wb a b c => gemm_ref false false ha wb n (bare_at a) (bare_at b) (bare_at c))
    (fun ha wa wb a b c => gemm_ref false false ha wb wa (bare_at a) (bare_at b) (bare_at c));
  dispatch_addAB := fixed_below 13
    (fun n ha _ wb a b c => gemm_ref true true ha wb n (bare_at a) (bare_at b) (bare_at c))
    (fun ha wa wb a b c => gemm_ref true true ha wb wa (bare_at a) (bare_at b) (bare_at c));
  dispatch_subAB := fixed_below 13
    (fun n ha _ wb a b c => gemm_ref true false ha wb n (bare_at a) (bare_at b) (bare_at c))
    (fun ha wa wb a b c => gemm_ref true false ha wb wa (bare_at a) (bare_at b) (bare_at c));
  dispatch_atb := fun ADD POS => fixed_below 13
    (fun n ha _ wb a b c =>
       gemm_ref ADD POS n wb ha (transposed (bare_at a)) (bare_at b) (bare_at c))
    (fun ha wa wb a b c =>
       gemm_ref ADD POS wa wb ha (transposed (bare_at a)) (bare_at b) (bare_at c));
  dispatch_abt := fun n ha hb a b c =>
    gemm_ref false true ha hb n (bare_at a) (transposed (bare_at b)) (bare_at c);
  dispatch_addabt := fun n ha hb a b c =>
    gemm_ref true true ha hb n (bare_at a) (transposed (bare_at b)) (bare_at c);
  MultABt_intern := fun a b c =>
    gemm_ref false true (Height a) (Height b) (Width a)
      (mat_at a) (transposed (mat_at b)) (bare_at c);
  AddABt_intern := fun a b c =>
    gemm_ref true true (Height a) (Height b) (Width a)
      (mat_at a) (transposed (mat_at b)) (bare_at c);
  MinusMultABt := fun a b c =>
    gemm_ref false false (Height a) (Height b) (Width a)
      (mat_at a) (transposed (mat_at b)) (bare_at c);
  SubABt := fun a b c =>
    gemm_ref true false (Height a) (Height b) (Width a)
      (mat_at a) (transposed (mat_at b)) (bare_at c)
|}.

(** A library every routine of which returns at once. *)
Definition idle : Ngblas := {|
  dispatch_matvec := fun _ _ _ _ m => m;
  dispatch_addmatvec := fun _ _ _ _ _ m => m;
  dispatch_mattransvec := fun _ _ _ _ m => m;
  dispatch_addmattransvec := fun _ _ _ _ _ m => m;
  MultAddMatTransVecIndirect_intern := fun _ _ _ _ _ m => m;
  dispatch_addmattransvecI := fun _ _ _ _ _ _ m => m;
  dispatch_multAB := fun _ _ _ _ _ _ _ m => m;
  dispatch_minusmultAB := fun _ _ _ _ _ _ _ m => m;
  dispatch_addAB := fun _ _ _ _ _ _ _ m => m;
  dispatch_subAB := fun _ _ _ _ _ _ _ m => m;
  dispatch_atb := fun _ _ _ _ _ _ _ _ _ m => m;
  dispatch_abt := fun _ _ _ _ _ _ m => m;
  dispatch_addabt := fun _ _ _ _ _ _ m => m;
  MultABt_intern := fun _ _ _ m => m;
  AddABt_intern := fun _ _ _ m => m;
  MinusMultABt := fun _ _ _ m => m;
  SubABt := fun _ _ _ m => m
|}.

(** ** Row and column scaling (lines 284-293) *)

(** Modelled from the spec: [ScaleCols] is declared in the header for
    both orderings and defined in ngblas.cpp.  Section 4.4: column j of
    A is multiplied by diag[j], in place. *)
Definition ScaleCols {ord} (a : SliceMatrix ord) (diag : BareSliceVector) (m : Mem) : Mem :=
  sweep (grid (Height a) (Width a))
    (fun ij => mat_at a (fst ij) (snd ij))
    (fun ij m' => mul (m' (mat_at a (fst ij) (snd ij))) (m' (bv_elem diag (snd ij))))
    m.

Definition ScaleRows {ord} (a : SliceMatrix ord) (diag : BareSliceVector) : Mem -> Mem :=
  ScaleCols (Trans a) diag.

(** ** The policy layer NgGEMV (lines 486-541) *)

(** The unspecialised template: [y = -1*a*x], [y = 1*a*x], [y -= 1*a*x]
    or [y += 1*a*x], element by element over [y], the scalar applied to
    [a] first. *)
Definition NgGEMV_generic (ADD POS : bool) {ord}
    (a : SliceMatrix ord) (x y : FlatVector) (m : Mem) : Mem :=
  sweep (seq 0 (Size y)) (elem y)
    (fun i _ =>
       let prod s :=
         sum_to (Width a) (fun j => mul (mul s (m (mat_at a i j))) (m (elem x j))) in
       if negb ADD then
         if negb POS then prod (opp one) else prod one
       else
         if negb POS then sub (m (elem y i)) (prod one)
         else add (m (elem y i)) (prod one))
    m.

(** [NgGEMV<ADD,POS> (a, x, y)]: six explicit specialisations, three per
    ordering of [a]; [NgGEMV<false,false>] has none. *)
Definition NgGEMV {L : Ngblas} (ADD POS : bool) {ord}
    : SliceMatrix ord -> FlatVector -> FlatVector -> Mem -> option Mem :=
  match ord as o return SliceMatrix o -> FlatVector -> FlatVector -> Mem -> option Mem with
  | RowMajor => fun a x y =>
      match ADD, POS with
      | false, true => MultMatVec (bare a) x y
      | true, true => MultAddMatVec one (bare a) x y
      | true, false => MultAddMatVec (opp one) (bare a) x y
      | false, false => fun m => Some (NgGEMV_generic false false a x y m)
      end
  | ColMajor => fun a x y =>
      match ADD, POS with
      | false, true => MultMatTransVec (bare (Trans a)) x y
      | true, true => MultAddMatTransVec one (bare (Trans a)) x y
      | true, false => MultAddMatTransVec (opp one) (bare (Trans a)) x y
      | false, false => fun m => Some (NgGEMV_generic false false a x y m)
      end
  end.

(** ** Transposition (lines 53-57) *)

(** The template [TransposeMatrix]: [b = Trans(a)], an element-wise
    assignment over the extents of [b] that reads [a] while it runs. *)
Definition TransposeMatrix (a b : SliceMatrix RowMajor) (m : Mem) : Mem :=
  sweep (grid (Height b) (Width b))
    (fun ij => mat_at b (fst ij) (snd ij))
    (fun ij m' => m' (mat_at (Trans a) (fst ij) (snd ij)))
    m.

(** ** Diagonal-weighted update (lines 297-319) *)

(** The signature of the extern [SubAtDB]. *)
Definition psubatdb : Type :=
  SliceMatrix RowMajor -> SliceVector -> SliceMatrix RowMajor -> SliceMatrix RowMajor ->
  Mem -> Mem.

(** The template [SubADBt] for column-major operands. *)
Definition SubADBt_ColMajor (SubAtDB : psubatdb)
    (a : SliceMatrix ColMajor) (diag : SliceVector) (b c : SliceMatrix ColMajor)
    : Mem -> Mem :=
  SubAtDB (Trans b) diag (Trans a) (Trans c).

(** The cells of [c] are pairwise distinct and none of them is read. *)
Definition SubAtDB_pre {oa ob oc} (a : SliceMatrix oa) (diag : SliceVector)
    (b : SliceMatrix ob) (c : SliceMatrix oc) (k : nat) : Prop :=
  (forall i j i' j', i < Height c -> j < Width c -> i' < Height c -> j' < Width c ->
     mat_at c i j = mat_at c i' j' -> i = i' /\ j = j') /\
  (forall i j p q, i < Height c -> j < Width c -> p < Height a -> q < Width a ->
     mat_at c i j <> mat_at a p q) /\
  (forall i j p q, i < Height c -> j < Width c -> p < Height b -> q < Width b ->
     mat_at c i j <> mat_at b p q) /\
  (forall i j p, i < Height c -> j < Width c -> p < k -> mat_at c i j <> elem diag p).

(** Modelled from the spec (section 4.4): [SubAtDB (a, diag, b, c)] is
    C -= A^t diag(diag) B, the contraction running over the rows of A;
    its body is in ngblas.cpp. *)
Definition SubAtDB_spec (SubAtDB : psubatdb) : Prop :=
  forall a diag b c m, SubAtDB_pre a diag b c (Height a) ->
    (forall i j, i < Height c -> j < Width c ->
       SubAtDB a diag b c m (mat_at c i j)
       = sub (m (mat_at c i j))
           (sum_to (Height a) (fun p =>
              mul (mul (m (mat_at a p i)) (m (elem diag p))) (m (mat_at b p j))))) /\
    (forall q, (forall i j, i < Height c -> j < Width c -> q <> mat_at c i j) ->
       SubAtDB a diag b c m q = m q).

(** A routine that meets [SubAtDB_spec]. *)
Definition SubAtDB_loop : psubatdb := fun a diag b c m =>
  sweep (grid (Height c) (Width c))
    (fun ij => mat_at c (fst ij) (snd ij))
    (fun ij _ =>
       sub (m (mat_at c (fst ij) (snd ij)))
         (sum_to (Height a) (fun p =>
            mul (mul (m (mat_at a p (fst ij))) (m (elem diag p))) (m (mat_at b p (snd ij))))))
    m.

(** ** Results stated cell by cell *)

(** [m'] is [m] with the (h x w) result at [fc] replaced according to
    the policy, every other address as before. *)
Definition gemm_post (ADD POS : bool) (h w k : nat)
    (fa fb fc : nat -> nat -> nat) (m m' : Mem) : Prop :=
  (forall i j, i < h -> j < w ->
     m' (fc i j)
     = gemm_value ADD POS (m (fc i j)) (sum_to k (fun p => mul (m (fa i p)) (m (fb p j))))) /\
  (forall q, (forall i j, i < h -> j < w -> q <> fc i j) -> m' q = m q).

Definition gemv_post (ADD POS : bool) (k : nat) (fa : nat -> nat -> nat)
    (x y : FlatVector) (m m' : Mem) : Prop :=
  (forall i, i < Size y ->
     m' (elem y i)
     = gemm_value ADD POS (m (elem y i))
         (sum_to k (fun j => mul (m (fa i j)) (m (elem x j))))) /\
  (forall q, (forall i, i < Size y -> q <> elem y i) -> m' q = m q).

End Elements.

(** A library over the integers whose indirect routines only leave a
    mark at address 0: the index of the slot, or 99 for the
    non-dispatched routine. *)
Definition tagging : Ngblas (T := Z) := {|
  dispatch_matvec := dispatch_matvec (Ngblas := idle);
  dispatch_addmatvec := dispatch_addmatvec (Ngblas := idle);
  dispatch_mattransvec := dispatch_mattransvec (Ngblas := idle);
  dispatch_addmattransvec := dispatch_addmattransvec (Ngblas := idle);
  MultAddMatTransVecIndirect_intern := fun _ _ _ _ _ m => upd m 0 99%Z;
  dispatch_addmattransvecI := fun i _ _ _ _ _ m => upd m 0 (Z.of_nat i);
  dispatch_multAB := dispatch_multAB (Ngblas := idle);
  dispatch_minusmultAB := dispatch_minusmultAB (Ngblas := idle);
  dispatch_addAB := dispatch_addAB (Ngblas := idle);
  dispatch_subAB := dispatch_subAB (Ngblas := idle);
  dispatch_atb := dispatch_atb (Ngblas := idle);
  dispatch_abt := dispatch_abt (Ngblas := idle);
  dispatch_addabt := dispatch_addabt (Ngblas := idle);
  MultABt_intern := MultABt_intern (Ngblas := idle);
  AddABt_intern := AddABt_intern (Ngblas := idle);
  MinusMultABt := MinusMultABt (Ngblas := idle);
  SubABt := SubABt (Ngblas := idle)
|}.

(** ** Dense algorithms and multi-vector operations on values *)

Section Values.

Context {T : Type} {AT : Arith T}.

(** A dense matrix by its rows. *)
Definition Matrix := list (list T).

Definition entry (A : Matrix) (i j : nat) : T := nth j (nth i A []) zero.

Definition sub_block (A : Matrix) (rows cols : list nat) : Matrix :=
  map (fun i => map (fun j => entry A i j) cols) rows.

(** Product of [A] (any height, [n] columns) with [B] ([n] rows, [w]
    columns). *)
Definition mat_mul (n w : nat) (A B : Matrix) : Matrix :=
  map (fun row =>
         map (fun j => sum_to n (fun p => mul (nth p row zero) (entry B p j))) (seq 0 w))
      A.

Definition mat_sub (A B : Matrix) : Matrix :=
  map (fun rr => map (fun xy => sub (fst xy) (snd xy)) (combine (fst rr) (snd rr)))
      (combine A B).

(** The indices of a bit-set whose flag is [flag], in increasing order. *)
Definition indices_where (flag : bool) (used : list bool) : list nat :=
  filter (fun i => Bool.eqb (nth i used false) flag) (seq 0 (length used)).

(** Modelled from the spec: eigensystem.hpp only declares
    [CalcSchurComplement]; its body is not in the header.  Section 4.8:
    the indices marked in [used] are eliminated, the others kept, and
    S = A_kk - A_ke A_ee^-1 A_ek.  The inverse of the eliminated block is
    taken by [CalcInverse], a routine of the library that is not in the
    header either; what is required of it is [inverts], below. *)
Definition CalcSchurComplement (CalcInverse : Matrix -> Matrix)
    (A : Matrix) (used : list bool) : Matrix :=
  let k := indices_where false used in
  let e := indices_where true used in
  let ne := length e in
  let nk := length k in
  mat_sub (sub_block A k k)
    (mat_mul ne nk
       (mat_mul ne ne (sub_block A k e) (CalcInverse (sub_block A e e)))
       (sub_block A e k)).

(** Modelled from the spec: section 4.8 writes A_ee^-1, so the routine
    that [CalcSchurComplement] is given has to return an inverse of the
    block it is applied to: the product of its result with the block is
    the identity. *)
Definition inverts (CalcInverse : Matrix -> Matrix) (M : Matrix) : Prop :=
  forall p q, p < length M -> q < length M ->
    sum_to (length M) (fun r => mul (entry (CalcInverse M) p r) (entry M r q))
    = if p =? q then one else zero.

(** The adjugate of a two by two matrix, which is its inverse when the
    determinant is one; other shapes are returned as they are. *)
Definition adjugate2 (M : Matrix) : Matrix :=
  match M with
  | [[a; b]; [c; d]] => [[d; opp b]; [opp c; a]]
  | _ => M
  end.

(** Modelled from the spec: the multi-vector operations are declared in
    the header and defined in ngblas.cpp.  The comments above the
    declarations and section 4.6: ip(i,j) = InnerProduct(x_i, y_j) and
    x_i += sum_j a(i,j) y_j, over vectors of [n] elements. *)
Definition InnerProduct (n : nat) (u v : list T) : T :=
  sum_to n (fun k => mul (nth k u zero) (nth k v zero)).

(** Modelled from the spec: ip(i,j) = InnerProduct(x_i, y_j); the body is
    in ngblas.cpp. *)
Definition PairwiseInnerProduct (n : nat) (x y : list (list T)) : Matrix :=
  map (fun xi => map (fun yj => InnerProduct n xi yj) y) x.

(** Modelled from the spec: x_i += sum_j a(i,j) y_j; the body is in
    ngblas.cpp.  The updated collection is returned. *)
Definition MultiVectorAdd (n : nat) (x y : list (list T)) (a : Matrix) : list (list T) :=
  map (fun i =>
         map (fun k =>
                add (nth k (nth i x []) zero)
                    (sum_to (length y) (fun j => mul (entry a i j) (nth k (nth j y []) zero))))
             (seq 0 n))
      (seq 0 (length x)).

Definition identity (n : nat) : Matrix :=
  map (fun i => map (fun j => if i =? j then one else zero) (seq 0 n)) (seq 0 n).

Definition vec_add (u v : list T) : list T :=
  map (fun xy => add (fst xy) (snd xy)) (combine u v).

End Values.

(** * Properties *)

Section Properties.

Context {T : Type} {AT : Arith T}.

Implicit Types m : @Mem T.

(** ** Memory and sweeps *)

Lemma upd_same m p v : upd m p v p = v.
Proof. unfold upd. now rewrite Nat.eqb_refl. Qed.

Lemma upd_other m p v q : q <> p -> upd m p v q = m q.
Proof. unfold upd. intros H. apply Nat.eqb_neq in H. now rewrite H. Qed.

Lemma sweep_cons {I} (c : I) cells addr val m :
  sweep (c :: cells) addr val m = sweep cells addr val (upd m (addr c) (val c m)).
Proof. reflexivity. Qed.

(** A sweep leaves every address alone that is not the address of one of
    its cells. *)
Lemma sweep_frame {I} (cells : list I) addr val m q :
  (forall c, In c cells -> q <> addr c) ->
  sweep cells addr val m q = m q.
Proof.
  revert m. induction cells as [|c cells IH]; intros m Hq; [reflexivity|].
  rewrite sweep_cons, IH.
  - apply upd_other, Hq. now left.
  - intros c' Hc'. apply Hq. now right.
Qed.

(** If the cells have pairwise distinct addresses inside a footprint [F],
    and the value stored at a cell only depends on that cell and on
    memory outside [F], every cell ends with the value computed on the
    initial memory. *)
Lemma sweep_at_footprint {I} (F : nat -> Prop) addr val (G : I -> T) :
  forall (cells : list I) m,
  NoDup (map addr cells) ->
  (forall c, In c cells -> F (addr c)) ->
  (forall c m', In c cells -> m' (addr c) = m (addr c) ->
     (forall q, ~ F q -> m' q = m q) -> val c m' = G c) ->
  forall c, In c cells -> sweep cells addr val m (addr c) = G c.
Proof.
  induction cells as [|c0 cells IH]; intros m Hnd HF Hval c Hc; [destruct Hc|].
  cbn [map] in Hnd. inversion Hnd as [|? ? Hnotin Hnd']; subst.
  rewrite sweep_cons. destruct Hc as [->|Hc].
  - rewrite sweep_frame.
    + rewrite upd_same. apply Hval; [now left|reflexivity|reflexivity].
    + intros c' Hc' Heq. apply Hnotin. rewrite Heq. now apply in_map.
  - apply IH; trivial.
    + intros c' Hc'. apply HF. now right.
    + intros c' m' Hc' Hown Hout.
      assert (Hne : addr c' <> addr c0).
      { intros Heq. apply Hnotin. rewrite <- Heq. now apply in_map. }
      apply Hval; [now right| |].
      * rewrite Hown. now apply upd_other.
      * intros q Hq. rewrite Hout by assumption. apply upd_other.
        intros ->. apply Hq, HF. now left.
Qed.

Lemma sweep_at {I} addr val (G : I -> T) (cells : list I) m :
  NoDup (map addr cells) ->
  (forall c m', In c cells -> m' (addr c) = m (addr c) ->
     (forall q, (forall c', In c' cells -> q <> addr c') -> m' q = m q) ->
     val c m' = G c) ->
  forall c, In c cells -> sweep cells addr val m (addr c) = G c.
Proof.
  intros Hnd Hval.
  apply sweep_at_footprint with (F := fun q => exists c', In c' cells /\ q = addr c');
    trivial.
  - intros c Hc. now exists c.
  - intros c m' Hc Hown Hout. apply Hval; trivial.
    intros q Hq. apply Hout. intros (c' & Hc' & ->). now apply (Hq c').
Qed.

(** An address is the address of a cell or of none. *)
Lemma cell_dec {I} (addr : I -> nat) (cells : list I) q :
  (exists c, In c cells /\ q = addr c) \/ (forall c, In c cells -> q <> addr c).
Proof.
  induction cells as [|c0 cells [(c & Hc & ->)|IH]].
  - right. intros c [].
  - left. exists c. split; [now right|reflexivity].
  - destruct (Nat.eq_dec q (addr c0)) as [->|Hne].
    + left. exists c0. split; [now left|reflexivity].
    + right. intros c [<-|Hc]; auto.
Qed.

(** Two sweeps whose cells correspond, with the same addresses and the
    same final values, agree everywhere. *)
Lemma sweep_reindex {I J} (phi : I -> J) (psi : J -> I)
    (cells : list I) (cells' : list J) addr addr' val val' (G : I -> T) (G' : J -> T) m :
  (forall c, In c cells -> In (phi c) cells' /\ addr' (phi c) = addr c /\ G' (phi c) = G c) ->
  (forall c', In c' cells' -> In (psi c') cells /\ addr (psi c') = addr' c') ->
  (forall c, In c cells -> sweep cells addr val m (addr c) = G c) ->
  (forall c', In c' cells' -> sweep cells' addr' val' m (addr' c') = G' c') ->
  forall q, sweep cells addr val m q = sweep cells' addr' val' m q.
Proof.
  intros Hphi Hpsi H1 H2 q.
  destruct (cell_dec addr cells q) as [(c & Hc & ->)|Hout].
  - destruct (Hphi c Hc) as (Hc' & Haddr & HG).
    rewrite H1 by assumption. rewrite <- Haddr, H2 by assumption. now symmetry.
  - rewrite sweep_frame by assumption. symmetry. apply sweep_frame.
    intros c' Hc' Heq. destruct (Hpsi c' Hc') as (Hc & Haddr).
    apply (Hout (psi c') Hc). now rewrite Haddr.
Qed.

Lemma sweep_pointwise {I} (cells : list I) addr addr' val val' m :
  (forall c, In c cells -> addr c = addr' c) ->
  (forall c m', In c cells -> val c m' = val' c m') ->
  sweep cells addr val m = sweep cells addr' val' m.
Proof.
  revert m. induction cells as [|c cells IH]; intros m Ha Hv; [reflexivity|].
  rewrite !sweep_cons, Ha, Hv by now left.
  apply IH; intros; [apply Ha|apply Hv]; now right.
Qed.

Lemma sum_to_ext n (f g : nat -> T) :
  (forall p, p < n -> f p = g p) -> sum_to n f = sum_to n g.
Proof.
  induction n as [|n IH]; intros H; [reflexivity|].
  cbn [sum_to]. rewrite IH, H; auto.
Qed.

Lemma NoDup_grid h w : NoDup (grid h w).
Proof.
  unfold grid. generalize (seq_NoDup h 0). generalize (seq 0 h) as l.
  induction l as [|i l IH]; intros Hl; cbn [list_prod]; [constructor|].
  inversion Hl as [|? ? Hi Hl']; subst.
  apply NoDup_app.
  - apply NoDup_map_NoDup_ForallPairs; [|apply seq_NoDup]. now intros ? ? _ _ [= ->].
  - now apply IH.
  - intros [i' j] Hin1 Hin2.
    apply in_map_iff in Hin1 as (? & [= <- <-] & _).
    apply in_prod_iff in Hin2 as [Hin2 _]. contradiction.
Qed.

Lemma in_grid h w i j : In (i, j) (grid h w) <-> i < h /\ j < w.
Proof.
  unfold grid. rewrite in_prod_iff, !in_seq. lia.
Qed.

Lemma NoDup_grid_addr h w (f : nat -> nat -> nat) :
  (forall i j i' j', i < h -> j < w -> i' < h -> j' < w ->
     f i j = f i' j' -> i = i' /\ j = j') ->
  NoDup (map (fun ij => f (fst ij) (snd ij)) (grid h w)).
Proof.
  intros Hinj. apply NoDup_map_NoDup_ForallPairs; [|apply NoDup_grid].
  intros [i j] [i' j'] Hin Hin' Heq. cbn [fst snd] in Heq.
  apply in_grid in Hin, Hin'.
  destruct (Hinj i j i' j') as [-> ->]; intuition.
Qed.

(** ** Table indices *)

Lemma at_slot_lt {K} n (tbl : nat -> K) i : i < n -> at_slot n tbl i = Some (tbl i).
Proof. unfold at_slot. intros H. apply Nat.ltb_lt in H. now rewrite H. Qed.

Lemma call_slot_lt {K} n (tbl : nat -> K) i (run : K -> Mem -> Mem) m :
  i < n -> call_slot n tbl i run m = Some (run (tbl i) m).
Proof. unfold call_slot. intros H. now rewrite at_slot_lt. Qed.

Lemma clamped_call_min {K} len (tbl : nat -> K) key (run : K -> @Mem T -> @Mem T) :
  0 < len ->
  clamped_call len tbl key run (call_slot len tbl (Nat.min key (len - 1)) run).
Proof.
  intros Hlen. unfold clamped_call.
  assert (Nat.min key (len - 1) < len) by lia.
  repeat split; trivial.
  - now apply at_slot_lt.
  - intros m. now apply call_slot_lt.
Qed.

Lemma guard_false a b : (a =? 0) || (b =? 0) = false -> a <> 0 /\ b <> 0.
Proof.
  intros H. apply orb_false_iff in H as [Ha Hb].
  now apply Nat.eqb_neq in Ha, Hb.
Qed.

(** C9.  Every table-dispatched entry point indexes its table at
    min(size, table length - 1): the index is below the table length for
    every size, 0 and sizes beyond the specialised range included, so the
    lookup always yields a slot and that slot is the routine run.  The
    matrix-vector entry points do so on every call.  The matrix-matrix
    entry points return at once, without a lookup, exactly when the
    height of A or the width of B is zero, and make such a clamped call
    on the width of A in every other case. *)
Theorem dispatch_index_in_bounds (L : Ngblas) :
  (forall a x y,
     clamped_call size_dispatch_matvec dispatch_matvec (Size x)
       (fun f => f a x y) (MultMatVec a x y)) /\
  (forall s a x y,
     clamped_call size_dispatch_addmatvec dispatch_addmatvec (Size x)
       (fun f => f s a x y) (MultAddMatVec s a x y)) /\
  (forall a x y,
     clamped_call size_dispatch_mattransvec dispatch_mattransvec (Size x)
       (fun f => f a x y) (MultMatTransVec a x y)) /\
  (forall s a x y,
     clamped_call size_dispatch_addmattransvec dispatch_addmattransvec (Size x)
       (fun f => f s a x y) (MultAddMatTransVec s a x y)) /\
  (forall a b c,
     (Height a = 0 \/ Width b = 0 -> forall m, MultMatMat a b c m = Some m) /\
     (Height a <> 0 -> Width b <> 0 ->
      clamped_call size_dispatch_multAB dispatch_multAB (Width a)
        (fun f => f (Height a) (Width a) (Width b) (bare a) (bare b) (bare c))
        (MultMatMat a b c))) /\
  (forall a b c,
     (Height a = 0 \/ Width b = 0 -> forall m, MinusMultAB a b c m = Some m) /\
     (Height a <> 0 -> Width b <> 0 ->
      clamped_call size_dispatch_minusmultAB dispatch_minusmultAB (Width a)
        (fun f => f (Height a) (Width a) (Width b) (bare a) (bare b) (bare c))
        (MinusMultAB a b c))) /\
  (forall a b c,
     (Height a = 0 \/ Width b = 0 -> forall m, AddAB a b c m = Some m) /\
     (Height a <> 0 -> Width b <> 0 ->
      clamped_call size_dispatch_addAB dispatch_addAB (Width a)
        (fun f => f (Height a) (Width a) (Width b) (bare a) (bare b) (bare c))
        (AddAB a b c))) /\
  (forall a b c,
     (Height a = 0 \/ Width b = 0 -> forall m, SubAB a b c m = Some m) /\
     (Height a <> 0 -> Width b <> 0 ->
      clamped_call size_dispatch_subAB dispatch_subAB (Width a)
        (fun f => f (Height a) (Width a) (Width b) (bare a) (bare b) (bare c))
        (SubAB a b c))) /\
  (forall ADD POS a b c,
     (Height a = 0 \/ Width b = 0 -> forall m, MatMat_AtB ADD POS a b c m = Some m) /\
     (Height a <> 0 -> Width b <> 0 ->
      clamped_call size_dispatch_atb (dispatch_atb ADD POS) (Width a)
        (fun f => f (Height a) (Width a) (Width b) (bare a) (bare b) c)
        (MatMat_AtB ADD POS a b c))).
Proof.
  repeat match goal with |- _ /\ _ => split end; intros;
    try match goal with |- (_ -> _) /\ _ => split; intros end;
    unfold MultMatVec, MultAddMatVec, MultMatTransVec, MultAddMatTransVec,
      MultMatMat, MinusMultAB, AddAB, SubAB, MatMat_AtB; cbv zeta;
    try match goal with
        | H : ?h = 0 \/ ?w = 0 |- _ =>
            replace ((h =? 0) || (w =? 0)) with true
              by (symmetry; apply orb_true_iff; destruct H as [-> | ->]; auto);
            reflexivity
        | H : ?h <> 0, H' : ?w <> 0 |- _ =>
            replace ((h =? 0) || (w =? 0)) with false
              by (symmetry; apply orb_false_iff; split; now apply Nat.eqb_neq)
        end;
    apply clamped_call_min;
    unfold size_dispatch_matvec, size_dispatch_addmatvec, size_dispatch_mattransvec,
      size_dispatch_addmattransvec, size_dispatch_multAB, size_dispatch_minusmultAB,
      size_dispatch_addAB, size_dispatch_subAB, size_dispatch_atb; lia.
Qed.

(** ** Matrix-vector dispatch *)

Lemma slot_covers_min last n : slot_covers last (Nat.min n last) n.
Proof.
  unfold slot_covers. destruct (le_lt_dec last n); [right|left]; lia.
Qed.

Lemma with_size_self (x : FlatVector) : with_size (Size x) x = x.
Proof. now destruct x. Qed.

Lemma fixed_below_covers {K} last (fixed : nat -> K) general i n :
  slot_covers last i n ->
  fixed_below last fixed general i = if n <? last then fixed n else general.
Proof.
  unfold fixed_below. intros [[Hi ->]|[-> Hn]]; [reflexivity|].
  rewrite Nat.ltb_irrefl. apply Nat.ltb_ge in Hn. now rewrite Hn.
Qed.

(** The unrolled library meets the contract of the matrix-vector tables. *)
Lemma unrolled_Gemv_spec : Gemv_spec unrolled.
Proof.
  split; intros; cbn [dispatch_matvec dispatch_addmatvec dispatch_mattransvec
                      dispatch_addmattransvec unrolled];
    match goal with H : slot_covers _ _ _ |- _ =>
      rewrite (fixed_below_covers _ _ H) end;
    destruct (_ <? _); now rewrite ?with_size_self.
Qed.

Lemma unrolled_Indirect_spec : Indirect_spec unrolled.
Proof. split; reflexivity. Qed.

(** C1.  With tables whose slots agree with the reference on the lengths
    they serve (the last slot on every length from its index on), each
    of the four dispatched entry points returns the memory the generic
    reference computes: y := A x, y += s (A x), and the two with A
    transposed.  The slot used is the length of the contracted vector x
    clamped to the last index of the table.  This holds for every
    length of x, hence for all lengths from 0 to twice the last index. *)
Theorem dispatched_matvec_matches_reference (L : Ngblas) (HL : Gemv_spec L)
    (s : T) (a : BareSliceMatrix RowMajor) (x y : FlatVector) m :
  (gemv_pre (bare_at a) x y ->
   exists m', MultMatVec a x y m = Some m' /\
     m' = dispatch_matvec (Nat.min (Size x) (size_dispatch_matvec - 1)) a x y m /\
     forall q, m' q = gemv_ref None (bare_at a) x y m q) /\
  (gemv_pre (bare_at a) x y ->
   exists m', MultAddMatVec s a x y m = Some m' /\
     m' = dispatch_addmatvec (Nat.min (Size x) (size_dispatch_addmatvec - 1)) s a x y m /\
     forall q, m' q = gemv_ref (Some s) (bare_at a) x y m q) /\
  (gemv_pre (transposed (bare_at a)) x y ->
   exists m', MultMatTransVec a x y m = Some m' /\
     m' = dispatch_mattransvec (Nat.min (Size x) (size_dispatch_mattransvec - 1)) a x y m /\
     forall q, m' q = gemv_ref None (transposed (bare_at a)) x y m q) /\
  (gemv_pre (transposed (bare_at a)) x y ->
   exists m', MultAddMatTransVec s a x y m = Some m' /\
     m' = dispatch_addmattransvec
            (Nat.min (Size x) (size_dispatch_addmattransvec - 1)) s a x y m /\
     forall q, m' q = gemv_ref (Some s) (transposed (bare_at a)) x y m q).
Proof.
  destruct HL as [H1 H2 H3 H4].
  unfold MultMatVec, MultAddMatVec, MultMatTransVec, MultAddMatTransVec.
  repeat match goal with |- _ /\ _ => split end; intros Hpre;
    (eexists; split; [apply call_slot_lt|split; [reflexivity|intros q]]).
  - unfold size_dispatch_matvec; lia.
  - apply H1; [apply slot_covers_min|assumption].
  - unfold size_dispatch_addmatvec; lia.
  - apply H2; [apply slot_covers_min|assumption].
  - unfold size_dispatch_mattransvec; lia.
  - apply H3; [apply slot_covers_min|assumption].
  - unfold size_dispatch_addmattransvec; lia.
  - apply H4; [apply slot_covers_min|assumption].
Qed.

(** ** The indirect variant *)

(** C6, as the code has it.  [MultAddMatTransVecIndirect] goes through
    slot [y.Size()] of its table when [y.Size() <= 24] and calls
    [MultAddMatTransVecIndirect_intern] otherwise; with a table and a
    routine that meet their contract, the result is
    y[ind[i]] += s * sum_j x[j]*A[j,i] for every i. *)
Theorem indirect_dispatch_on_y (L : Ngblas) (HL : Indirect_spec L)
    (s : T) (a : BareSliceMatrix RowMajor) (x y : FlatVector) (ind : list nat) m :
  (Size y <= 24 ->
     MultAddMatTransVecIndirect s a x y ind m
     = Some (dispatch_addmattransvecI (Size y) s a x y ind m)) /\
  (24 < Size y ->
     MultAddMatTransVecIndirect s a x y ind m
     = Some (MultAddMatTransVecIndirect_intern s a x y ind m)) /\
  exists m', MultAddMatTransVecIndirect s a x y ind m = Some m' /\
    forall q, m' q = addmattransvecI_ref s a x y ind m q.
Proof.
  destruct HL as [Hslot Hint]. unfold MultAddMatTransVecIndirect.
  destruct (Nat.leb_spec (Size y) 24) as [Hle|Hgt].
  - assert (Hcall : call_slot size_dispatch_addmattransvecI dispatch_addmattransvecI
              (Size y) (fun f => f s a x y ind) m
            = Some (dispatch_addmattransvecI (Size y) s a x y ind m)).
    { apply call_slot_lt. unfold size_dispatch_addmattransvecI. lia. }
    split; [trivial|]. split; [lia|].
    eexists. split; [exact Hcall|]. intros q. now apply Hslot.
  - split; [lia|]. split; [reflexivity|].
    eexists. split; [reflexivity|]. intros q. now apply Hint.
Qed.

(** ** Vector primitives *)

(** A counted loop whose body is one store is a sweep over its index
    range, and its accesses are those of the bodies in order. *)
Lemma for_each_run (body : nat -> M unit) addr val (tr : nat -> list access) :
  (forall i m, body i m = (tt, upd m (addr i) (val i m), tr i)) ->
  forall n m,
    for_each n body m = (tt, sweep (seq 0 n) addr val m, flat_map tr (seq 0 n)).
Proof.
  intros Hbody. induction n as [|k IH]; intros m; [reflexivity|].
  cbn [for_each]. unfold bind. rewrite IH, Hbody, seq_S. cbn [Nat.add].
  unfold sweep. rewrite fold_left_app, flat_map_app. cbn [fold_left flat_map].
  now rewrite app_nil_r.
Qed.

Lemma CopyVector_run {V} `{VectorView V} (src dest : V) m :
  CopyVector src dest m =
  (tt,
   sweep (seq 0 (Size dest)) (elem dest) (fun i m' => m' (elem src i)) m,
   flat_map (fun i => [Rd (elem src i); Wr (elem dest i)]) (seq 0 (Size dest))).
Proof. unfold CopyVector. now apply for_each_run. Qed.

Lemma AddVector_run {V} `{VectorView V} (alpha : T) (src dest : V) m :
  AddVector alpha src dest m =
  (tt,
   sweep (seq 0 (Size dest)) (elem dest)
     (fun i m' => add (m' (elem dest i)) (mul alpha (m' (elem src i)))) m,
   flat_map (fun i => [Rd (elem src i); Rd (elem dest i); Wr (elem dest i)])
     (seq 0 (Size dest))).
Proof. unfold AddVector. now apply for_each_run. Qed.

(** Sweeps over the same cells, started on memories that agree on a set
    [S] and storing values that only depend on [S], agree on [S]. *)
Lemma sweep_agree {I} (S : nat -> Prop) (cells : list I) addr val val' :
  (forall c m1 m2, In c cells -> (forall q, S q -> m1 q = m2 q) -> val c m1 = val' c m2) ->
  forall m m', (forall q, S q -> m q = m' q) ->
  forall q, S q -> sweep cells addr val m q = sweep cells addr val' m' q.
Proof.
  induction cells as [|c cells IH]; intros Hval m m' Hm q Hq; [now apply Hm|].
  rewrite !sweep_cons. apply IH; trivial.
  - intros c' m1 m2 Hc'. apply Hval. now right.
  - intros p Hp. unfold upd. destruct (p =? addr c); [|now apply Hm].
    apply Hval; [now left|assumption].
Qed.

Lemma NoDup_range_addr n (addr : nat -> nat) :
  (forall i j, i < n -> j < n -> addr i = addr j -> i = j) ->
  NoDup (map addr (seq 0 n)).
Proof.
  intros Hinj. apply NoDup_map_NoDup_ForallPairs; [|apply seq_NoDup].
  intros i j Hi Hj. apply in_seq in Hi, Hj. apply Hinj; lia.
Qed.

(** C10.  [CopyVector] and [AddVector] run over the index range of
    [dest] only.  (1, 2) Their accesses are, for i = 0 .. dest.Size()-1
    in order, a read of src[i] (and of dest[i] for the sum) and a write
    of dest[i]: no index of [src] at or beyond dest.Size() is read.
    (3) Every address that is not one of dest[0 .. dest.Size()-1] keeps
    its value.  (4) When the elements of [dest] are distinct and src[i]
    is no element of [dest] other than dest[i], dest[i] ends as src[i],
    respectively as dest[i] + alpha*src[i].  (5) The final elements of
    [dest] are the same for any other source view and memory that agree
    on the elements src[i], dest[i] with i < dest.Size(): what lies
    behind that in a longer [src] has no influence. *)
Theorem vector_primitives_range_over_dest {V} `{VectorView V}
    (alpha : T) (src dest : V) m :
  trace (CopyVector src dest) m
  = flat_map (fun i => [Rd (elem src i); Wr (elem dest i)]) (seq 0 (Size dest)) /\
  trace (AddVector alpha src dest) m
  = flat_map (fun i => [Rd (elem src i); Rd (elem dest i); Wr (elem dest i)])
      (seq 0 (Size dest)) /\
  (forall q, (forall i, i < Size dest -> q <> elem dest i) ->
     exec (CopyVector src dest) m q = m q /\
     exec (AddVector alpha src dest) m q = m q) /\
  ((forall i j, i < Size dest -> j < Size dest -> elem dest i = elem dest j -> i = j) ->
   (forall i j, i < Size dest -> j < Size dest -> elem src i = elem dest j -> i = j) ->
   forall i, i < Size dest ->
     exec (CopyVector src dest) m (elem dest i) = m (elem src i) /\
     exec (AddVector alpha src dest) m (elem dest i)
     = add (m (elem dest i)) (mul alpha (m (elem src i)))) /\
  (forall (src' : V) m',
     (forall i, i < Size dest -> elem src' i = elem src i) ->
     (forall i, i < Size dest ->
        m' (elem src i) = m (elem src i) /\ m' (elem dest i) = m (elem dest i)) ->
     forall i, i < Size dest ->
       exec (CopyVector src' dest) m' (elem dest i)
       = exec (CopyVector src dest) m (elem dest i) /\
       exec (AddVector alpha src' dest) m' (elem dest i)
       = exec (AddVector alpha src dest) m (elem dest i)).
Proof.
  unfold trace, exec.
  split; [now rewrite CopyVector_run|]. split; [now rewrite AddVector_run|].
  split; [|split].
  - intros q Hq. rewrite CopyVector_run, AddVector_run. cbn [fst snd].
    split; apply sweep_frame; intros i Hi; apply Hq; apply in_seq in Hi; lia.
  - intros Hinj Hsrc i Hi. rewrite CopyVector_run, AddVector_run. cbn [fst snd].
    assert (Hin : In i (seq 0 (Size dest))) by (apply in_seq; lia).
    assert (Hloc : forall c m', In c (seq 0 (Size dest)) ->
              m' (elem dest c) = m (elem dest c) ->
              (forall q, (forall c', In c' (seq 0 (Size dest)) -> q <> elem dest c') ->
                 m' q = m q) ->
              m' (elem src c) = m (elem src c)).
    { intros c m' Hc Hown Hout. apply in_seq in Hc.
      destruct (Nat.eq_dec (elem src c) (elem dest c)) as [->|Hne]; [assumption|].
      apply Hout. intros c' Hc' Heq. apply in_seq in Hc'.
      apply Hne. rewrite Heq. f_equal. symmetry. apply (Hsrc c c'); lia || assumption. }
    split.
    + apply (sweep_at (elem dest) (fun i m' => m' (elem src i))
               (fun i => m (elem src i))); trivial.
      now apply NoDup_range_addr.
    + apply (sweep_at (elem dest)
               (fun i m' => add (m' (elem dest i)) (mul alpha (m' (elem src i))))
               (fun i => add (m (elem dest i)) (mul alpha (m (elem src i))))); trivial.
      * now apply NoDup_range_addr.
      * intros c m' Hc Hown Hout. now rewrite Hown, (Hloc c m').
  - intros src' m' Haddr Hm i Hi.
    rewrite !CopyVector_run, !AddVector_run. cbn [fst snd].
    set (S := fun q => exists k, k < Size dest /\ (q = elem src k \/ q = elem dest k)).
    assert (HS : forall q, S q -> m' q = m q).
    { intros q (k & Hk & [-> | ->]); now apply Hm. }
    assert (Hd : S (elem dest i)) by (exists i; auto).
    split; apply (sweep_agree S); trivial.
    + intros c m1 m2 Hc H12. apply in_seq in Hc. rewrite Haddr by lia.
      apply H12. exists c. split; [lia|auto].
    + intros c m1 m2 Hc H12. apply in_seq in Hc. rewrite Haddr by lia.
      rewrite (H12 (elem dest c)), (H12 (elem src c)); trivial;
        exists c; (split; [lia|auto]).
Qed.

(** ** Views and their transposes *)

Lemma mat_at_Trans {ord} (a : SliceMatrix ord) i j :
  mat_at (Trans a) i j = mat_at a j i.
Proof. now destruct ord. Qed.

Lemma wf_view_Trans {ord} (a : SliceMatrix ord) : wf_view (Trans a) <-> wf_view a.
Proof. now destruct ord. Qed.

(** In a well-formed view distinct index pairs have distinct addresses. *)
Lemma mat_at_inj {ord} (a : SliceMatrix ord) i j i' j' :
  wf_view a -> i < Height a -> j < Width a -> i' < Height a -> j' < Width a ->
  mat_at a i j = mat_at a i' j' -> i = i' /\ j = j'.
Proof.
  destruct a as [h w d p]. unfold wf_view, mat_at, bare_at, bare.
  destruct ord; cbn [Height Width Dist Data bDist bData]; intros Hwf Hi Hj Hi' Hj' Heq.
  - assert (i = i') by nia. subst. split; [reflexivity|lia].
  - assert (j = j') by nia. subst. split; [lia|reflexivity].
Qed.

(** ** Row and column scaling *)

Section Scaling.

Variable ord : ORDERING.
Variable a : SliceMatrix ord.
Variable diag : BareSliceVector.
Hypothesis a_wf : wf_view a.
Hypothesis diag_apart : forall i j k,
  i < Height a -> j < Width a -> k < Width a -> mat_at a i j <> bv_elem diag k.

Lemma ScaleCols_frame m q :
  (forall i j, i < Height a -> j < Width a -> q <> mat_at a i j) ->
  ScaleCols a diag m q = m q.
Proof.
  intros Hq. unfold ScaleCols. apply sweep_frame.
  intros [i j] Hin. apply in_grid in Hin. now apply Hq.
Qed.

Lemma ScaleCols_at m i j :
  i < Height a -> j < Width a ->
  ScaleCols a diag m (mat_at a i j) = mul (m (mat_at a i j)) (m (bv_elem diag j)).
Proof.
  intros Hi Hj. unfold ScaleCols.
  apply (sweep_at (fun ij => mat_at a (fst ij) (snd ij))
           (fun ij m' => mul (m' (mat_at a (fst ij) (snd ij))) (m' (bv_elem diag (snd ij))))
           (fun ij => mul (m (mat_at a (fst ij) (snd ij))) (m (bv_elem diag (snd ij))))
           (grid (Height a) (Width a)) m) with (c := (i, j)).
  - apply NoDup_grid_addr. intros. now apply (mat_at_inj a).
  - intros [i' j'] m' Hin Hown Hout. cbn [fst snd] in *. apply in_grid in Hin.
    rewrite Hown. f_equal. apply Hout.
    intros [i2 j2] Hin2. cbn [fst snd]. apply in_grid in Hin2.
    intros Heq. apply (diag_apart (i := i2) (j := j2) (k := j')); intuition.
  - now apply in_grid.
Qed.

End Scaling.

(** C7.  [ScaleRows (a, d)] is [ScaleCols (Trans(a), d)]; it multiplies
    row i of A by d[i] in place and touches nothing else; and for d with
    nonzero entries, scaling the columns of the transposed view by the
    reciprocals afterwards gives back the memory as it was.  The
    arithmetic is that of a field (products associate, x*1 = x,
    x*(1/x) = 1 for nonzero x); A is a well-formed view and neither
    vector lies inside it. *)
Theorem ScaleRows_is_ScaleCols_of_Trans {R : Reciprocal T}
    (mul_assoc : forall x y z : T, mul (mul x y) z = mul x (mul y z))
    (mul_one_r : forall x : T, mul x one = x)
    (mul_recip : forall x : T, x <> zero -> mul x (recip x) = one)
    {ord} (a : SliceMatrix ord) (d dinv : BareSliceVector) m :
  wf_view a ->
  (forall i j k, i < Height a -> j < Width a -> k < Height a ->
     mat_at a i j <> bv_elem d k /\ mat_at a i j <> bv_elem dinv k) ->
  (forall k, k < Height a -> m (bv_elem d k) <> zero) ->
  (forall k, k < Height a -> m (bv_elem dinv k) = recip (m (bv_elem d k))) ->
  ScaleRows a d m = ScaleCols (Trans a) d m /\
  (forall i j, i < Height a -> j < Width a ->
     ScaleRows a d m (mat_at a i j) = mul (m (mat_at a i j)) (m (bv_elem d i))) /\
  (forall q, (forall i j, i < Height a -> j < Width a -> q <> mat_at a i j) ->
     ScaleRows a d m q = m q) /\
  (forall q, ScaleCols (Trans a) dinv (ScaleRows a d m) q = m q).
Proof.
  intros Hwf Hapart Hnz Hinv.
  assert (Hwf' : wf_view (Trans a)) by now apply wf_view_Trans.
  assert (Hd : forall j i k, j < Height (Trans a) -> i < Width (Trans a) ->
            k < Width (Trans a) -> mat_at (Trans a) j i <> bv_elem d k).
  { intros j i k Hj Hi Hk. rewrite mat_at_Trans. now apply Hapart. }
  assert (Hdinv : forall j i k, j < Height (Trans a) -> i < Width (Trans a) ->
            k < Width (Trans a) -> mat_at (Trans a) j i <> bv_elem dinv k).
  { intros j i k Hj Hi Hk. rewrite mat_at_Trans. now apply Hapart. }
  assert (Hrow : forall i j, i < Height a -> j < Width a ->
            ScaleRows a d m (mat_at a i j) = mul (m (mat_at a i j)) (m (bv_elem d i))).
  { intros i j Hi Hj. unfold ScaleRows. rewrite <- (mat_at_Trans a j i).
    now apply ScaleCols_at. }
  assert (Hframe : forall q, (forall i j, i < Height a -> j < Width a -> q <> mat_at a i j) ->
            ScaleRows a d m q = m q).
  { intros q Hq. unfold ScaleRows. apply ScaleCols_frame.
    intros j i Hj Hi. rewrite mat_at_Trans. now apply Hq. }
  split; [reflexivity|]. split; [exact Hrow|]. split; [exact Hframe|].
  intros q.
  destruct (cell_dec (fun ij => mat_at a (fst ij) (snd ij)) (grid (Height a) (Width a)) q)
    as [([i j] & Hin & ->)|Hout].
  - apply in_grid in Hin as [Hi Hj]. cbn [fst snd].
    assert (Hdi : ScaleRows a d m (bv_elem dinv i) = m (bv_elem dinv i)).
    { apply Hframe. intros i' j' Hi' Hj' Heq. symmetry in Heq.
      now apply (Hapart i' j' i). }
    rewrite <- (mat_at_Trans a j i), ScaleCols_at; trivial.
    rewrite mat_at_Trans, (Hrow i j Hi Hj), Hdi, Hinv by assumption.
    rewrite mul_assoc, mul_recip, mul_one_r; auto.
  - assert (Hq : forall i j, i < Height a -> j < Width a -> q <> mat_at a i j).
    { intros i j Hi Hj. apply (Hout (i, j)). now apply in_grid. }
    rewrite ScaleCols_frame, Hframe; trivial.
    intros j i Hj Hi. rewrite mat_at_Trans. now apply Hq.
Qed.

(** ** The reference product *)

Lemma gemm_ref_ext ADD POS h w k fa fb fc fa' fb' fc' m :
  (forall i j, fa i j = fa' i j) ->
  (forall i j, fb i j = fb' i j) ->
  (forall i j, fc i j = fc' i j) ->
  gemm_ref ADD POS h w k fa fb fc m = gemm_ref ADD POS h w k fa' fb' fc' m.
Proof.
  intros Ha Hb Hc. unfold gemm_ref. apply sweep_pointwise.
  - intros c _. apply Hc.
  - intros c m' _. rewrite Hc. f_equal. apply sum_to_ext. intros p _.
    now rewrite Ha, Hb.
Qed.

Lemma gemm_pre_ext h w k fa fb fc fa' fb' fc' :
  (forall i j, fa i j = fa' i j) ->
  (forall i j, fb i j = fb' i j) ->
  (forall i j, fc i j = fc' i j) ->
  gemm_pre h w k fa fb fc -> gemm_pre h w k fa' fb' fc'.
Proof.
  intros Ha Hb Hc (Hinj & Hna & Hnb). split; [|split].
  - intros i j i' j' Hi Hj Hi' Hj'. rewrite <- !Hc. now apply Hinj.
  - intros i j i' p Hi Hj Hi' Hp. rewrite <- Hc, <- Ha. now apply Hna.
  - intros i j p j' Hi Hj Hp Hj'. rewrite <- Hc, <- Hb. now apply Hnb.
Qed.

Lemma gemm_ref_frame ADD POS h w k fa fb fc m q :
  (forall i j, i < h -> j < w -> q <> fc i j) ->
  gemm_ref ADD POS h w k fa fb fc m q = m q.
Proof.
  intros Hq. unfold gemm_ref. apply sweep_frame.
  intros [i j] Hin. apply in_grid in Hin. now apply Hq.
Qed.

Lemma gemm_ref_empty ADD POS h w k fa fb fc m q :
  h = 0 \/ w = 0 -> gemm_ref ADD POS h w k fa fb fc m q = m q.
Proof. intros Hz. apply gemm_ref_frame. intros; lia. Qed.

Lemma gemm_ref_at ADD POS h w k fa fb fc m i j :
  (forall i j i' j', i < h -> j < w -> i' < h -> j' < w ->
     fc i j = fc i' j' -> i = i' /\ j = j') ->
  i < h -> j < w ->
  gemm_ref ADD POS h w k fa fb fc m (fc i j)
  = gemm_value ADD POS (m (fc i j)) (sum_to k (fun p => mul (m (fa i p)) (m (fb p j)))).
Proof.
  intros Hinj Hi Hj. unfold gemm_ref.
  apply (sweep_at (fun ij => fc (fst ij) (snd ij)) _
           (fun ij => gemm_value ADD POS (m (fc (fst ij) (snd ij)))
                        (sum_to k (fun p => mul (m (fa (fst ij) p)) (m (fb p (snd ij))))))
           (grid h w) m) with (c := (i, j)).
  - now apply NoDup_grid_addr.
  - reflexivity.
  - now apply in_grid.
Qed.

(** (A B)^t = B^t A^t on references: the product taken through the three
    transposed address maps, operands exchanged, is the same memory. *)
Lemma gemm_ref_transposed (laws : Arith_laws) ADD POS h w k fa fb fc m :
  (forall i j i' j', i < h -> j < w -> i' < h -> j' < w ->
     fc i j = fc i' j' -> i = i' /\ j = j') ->
  forall q,
    gemm_ref ADD POS w h k (transposed fb) (transposed fa) (transposed fc) m q
    = gemm_ref ADD POS h w k fa fb fc m q.
Proof.
  intros Hinj.
  assert (Hinj' : forall j i j' i', j < w -> i < h -> j' < w -> i' < h ->
            transposed fc j i = transposed fc j' i' -> j = j' /\ i = i').
  { unfold transposed. intros j i j' i' Hj Hi Hj' Hi' Heq.
    destruct (Hinj i j i' j'); auto. }
  unfold gemm_ref at 1 2.
  apply (sweep_reindex (fun ji => (snd ji, fst ji)) (fun ij => (snd ij, fst ij))
           (grid w h) (grid h w) _ _ _ _
           (fun ji => gemm_ref ADD POS w h k (transposed fb) (transposed fa) (transposed fc) m
                        (transposed fc (fst ji) (snd ji)))
           (fun ij => gemm_ref ADD POS h w k fa fb fc m (fc (fst ij) (snd ij)))).
  - intros [j i] Hin. apply in_grid in Hin as [Hj Hi]. cbn [fst snd].
    split; [now apply in_grid|]. split; [reflexivity|].
    rewrite !gemm_ref_at by assumption. unfold transposed. f_equal.
    apply sum_to_ext. intros p _. apply (mul_comm laws).
  - intros [i j] Hin. apply in_grid in Hin as [Hi Hj]. cbn [fst snd].
    split; [now apply in_grid|reflexivity].
  - reflexivity.
  - reflexivity.
Qed.

(** The unspecialised template computes the reference product. *)
Lemma sum_to_opp (laws : Arith_laws) n (f : nat -> T) :
  sum_to n (fun p => opp (f p)) = opp (sum_to n f).
Proof.
  induction n as [|n IH]; cbn [sum_to].
  - symmetry. apply (opp_zero laws).
  - now rewrite IH, (opp_add laws).
Qed.

Lemma NgGEMM_generic_is_ref (laws : Arith_laws) ADD POS {orda ordb}
    (a : SliceMatrix orda) (b : SliceMatrix ordb) (c : SliceMatrix RowMajor) m :
  NgGEMM_generic ADD POS a b c m
  = gemm_ref ADD POS (Height c) (Width c) (Width a) (mat_at a) (mat_at b) (mat_at c) m.
Proof.
  unfold NgGEMM_generic, gemm_ref. apply sweep_pointwise; [reflexivity|].
  intros [i j] m' _. cbn [fst snd].
  assert (H1 : sum_to (Width a) (fun p => mul (mul one (m (mat_at a i p))) (m (mat_at b p j)))
               = sum_to (Width a) (fun p => mul (m (mat_at a i p)) (m (mat_at b p j)))).
  { apply sum_to_ext. intros p _. now rewrite (mul_one_l laws). }
  destruct ADD, POS; cbn [negb gemm_value]; rewrite ?H1; try reflexivity.
  rewrite <- (sum_to_opp laws). apply sum_to_ext. intros p _.
  now rewrite (mul_opp_one_l laws), (mul_opp_l laws).
Qed.

Lemma gemm_ref_no_terms (laws : Arith_laws) POS h w fa fb fc m :
  (forall i j i' j', i < h -> j < w -> i' < h -> j' < w ->
     fc i j = fc i' j' -> i = i' /\ j = j') ->
  forall q, gemm_ref true POS h w 0 fa fb fc m q = m q.
Proof.
  intros Hinj q.
  destruct (cell_dec (fun ij => fc (fst ij) (snd ij)) (grid h w) q)
    as [([i j] & Hin & ->)|Hout].
  - apply in_grid in Hin as [Hi Hj]. cbn [fst snd].
    rewrite gemm_ref_at by assumption. cbn [sum_to].
    destruct POS; cbn [gemm_value]; [apply (add_zero_r laws)|apply (sub_zero_r laws)].
  - apply gemm_ref_frame. intros i j Hi Hj. apply (Hout (i, j)). now apply in_grid.
Qed.

Lemma guard_true a b : (a =? 0) || (b =? 0) = true -> a = 0 \/ b = 0.
Proof.
  intros H. apply orb_true_iff in H as [H|H]; apply Nat.eqb_eq in H; auto.
Qed.

(** The unrolled library meets the contract of the matrix-matrix tables
    and routines. *)
Lemma unrolled_Gemm_spec : Gemm_spec unrolled.
Proof.
  split; intros;
    cbn [dispatch_multAB dispatch_minusmultAB dispatch_addAB dispatch_subAB dispatch_atb
         dispatch_abt dispatch_addabt MultABt_intern AddABt_intern MinusMultABt SubABt
         unrolled];
    try reflexivity;
    match goal with H : slot_covers _ _ _ |- _ =>
      rewrite (fixed_below_covers _ _ H) end;
    now destruct (_ <? _).
Qed.

(** ** The policy layer *)

Section Policy.

Context {L : Ngblas (T := T)}.
Hypothesis HL : Gemm_spec L.
Hypothesis laws : Arith_laws.

(** One of the four tables of the A*B family, behind its guard. *)
Lemma guarded_AB_call (tbl : nat -> pmultABW) ADD POS (a b c : SliceMatrix RowMajor) m :
  (forall i ha wa wb a b c m, slot_covers 13 i wa ->
     gemm_pre ha wb wa (bare_at a) (bare_at b) (bare_at c) ->
     forall q, tbl i ha wa wb a b c m q
               = gemm_ref ADD POS ha wb wa (bare_at a) (bare_at b) (bare_at c) m q) ->
  gemm_pre (Height a) (Width b) (Width a) (mat_at a) (mat_at b) (mat_at c) ->
  exists m',
    (if (Height a =? 0) || (Width b =? 0) then fun m => Some m
     else call_slot 14 tbl (Nat.min (Width a) 13)
            (fun f => f (Height a) (Width a) (Width b) (bare a) (bare b) (bare c))) m
    = Some m' /\
    forall q, m' q = gemm_ref ADD POS (Height a) (Width b) (Width a)
                       (mat_at a) (mat_at b) (mat_at c) m q.
Proof.
  intros Htbl Hpre. destruct ((Height a =? 0) || (Width b =? 0)) eqn:Hg.
  - exists m. split; [reflexivity|]. intros q. symmetry.
    apply gemm_ref_empty. now apply guard_true.
  - rewrite call_slot_lt by lia. eexists. split; [reflexivity|]. intros q.
    apply Htbl; [apply slot_covers_min|exact Hpre].
Qed.

(** [MultABt] and [AddABt]: a table up to width 24 and a routine above. *)
Lemma ABt_call (tbl : nat -> pfunc_abt) (intern : pmatmat) ADD POS
    (a b : SliceMatrix RowMajor) (c : BareSliceMatrix RowMajor) m :
  (forall wa ha hb a b c m, wa <= 24 ->
     gemm_pre ha hb wa (bare_at a) (transposed (bare_at b)) (bare_at c) ->
     forall q, tbl wa ha hb a b c m q
               = gemm_ref ADD POS ha hb wa (bare_at a) (transposed (bare_at b)) (bare_at c) m q) ->
  (forall a b c m, 24 < Width a ->
     gemm_pre (Height a) (Height b) (Width a) (mat_at a) (transposed (mat_at b)) (bare_at c) ->
     forall q, intern a b c m q
               = gemm_ref ADD POS (Height a) (Height b) (Width a)
                   (mat_at a) (transposed (mat_at b)) (bare_at c) m q) ->
  gemm_pre (Height a) (Height b) (Width a) (mat_at a) (transposed (mat_at b)) (bare_at c) ->
  exists m',
    (if Width a <=? 24
     then call_slot 25 tbl (Width a) (fun f => f (Height a) (Height b) (bare a) (bare b) c)
     else fun m => Some (intern a b c m)) m = Some m' /\
    forall q, m' q = gemm_ref ADD POS (Height a) (Height b) (Width a)
                       (mat_at a) (transposed (mat_at b)) (bare_at c) m q.
Proof.
  intros Htbl Hint Hpre. destruct (Nat.leb_spec (Width a) 24) as [Hle|Hgt].
  - rewrite call_slot_lt by lia. eexists. split; [reflexivity|]. intros q.
    now apply Htbl.
  - eexists. split; [reflexivity|]. intros q. now apply Hint.
Qed.

Lemma NgGEMM_rowmajor_correct ADD POS {orda ordb}
    (a : SliceMatrix orda) (b : SliceMatrix ordb) (c : SliceMatrix RowMajor) m :
  Height c = Height a -> Width c = Width b ->
  gemm_pre (Height a) (Width b) (Width a) (mat_at a) (mat_at b) (mat_at c) ->
  (ADD = false -> orda = ColMajor -> ordb = RowMajor -> Width a <> 0) ->
  exists m', NgGEMM_rowmajor ADD POS a b c m = Some m' /\
    forall q, m' q = gemm_ref ADD POS (Height a) (Width b) (Width a)
                       (mat_at a) (mat_at b) (mat_at c) m q.
Proof.
  intros Hh Hw Hpre Hk.
  destruct orda, ordb; cbn [NgGEMM_rowmajor].
  - (* A * B *)
    destruct ADD, POS; unfold AddAB, SubAB, MultMatMat, MinusMultAB; cbv zeta.
    + exact (@guarded_AB_call dispatch_addAB true true a b c m (addAB_ok HL) Hpre).
    + exact (@guarded_AB_call dispatch_subAB true false a b c m (subAB_ok HL) Hpre).
    + exact (@guarded_AB_call dispatch_multAB false true a b c m (multAB_ok HL) Hpre).
    + exact (@guarded_AB_call dispatch_minusmultAB false false a b c m
               (minusmultAB_ok HL) Hpre).
  - (* A * Bt *)
    destruct ADD, POS; unfold AddABt, MultABt; cbv zeta.
    + exact (@ABt_call dispatch_addabt AddABt_intern true true a (Trans b) (bare c) m
               (addabt_ok HL) (AddABt_intern_ok HL) Hpre).
    + eexists. split; [reflexivity|]. intros q.
      pose proof (SubABt_ok HL) as Hs. exact (Hs a (Trans b) (bare c) m Hpre q).
    + exact (@ABt_call dispatch_abt MultABt_intern false true a (Trans b) (bare c) m
               (abt_ok HL) (MultABt_intern_ok HL) Hpre).
    + eexists. split; [reflexivity|]. intros q.
      pose proof (MinusMultABt_ok HL) as Hs. exact (Hs a (Trans b) (bare c) m Hpre q).
  - (* At * B *)
    unfold MatMat_AtB; cbv zeta.
    cbn [Trans Height Width].
    destruct ((Width a =? 0) || (Width b =? 0)) eqn:Hg.
    + exists m. split; [reflexivity|]. intros q. symmetry.
      apply guard_true in Hg as [Hz|Hz]; [|apply gemm_ref_empty; now right].
      destruct ADD; [|now elim Hk].
      rewrite Hz. apply (gemm_ref_no_terms laws). apply Hpre.
    + rewrite call_slot_lt by (unfold size_dispatch_atb; lia).
      eexists. split; [reflexivity|]. intros q.
      pose proof (atb_ok HL) as Hs.
      exact (Hs ADD POS _ (Width a) (Height a) (Width b)
               (bare (Trans a)) (bare b) (bare c) m
               (slot_covers_min _ _) Hpre q).
  - (* both operands column-major: the template *)
    eexists. split; [reflexivity|]. intros q.
    now rewrite (NgGEMM_generic_is_ref laws), Hh, Hw.
Qed.

End Policy.

(** ** Zero-sized operands of the matrix-matrix entry points *)

Lemma guard_is_false h w : h <> 0 -> w <> 0 -> (h =? 0) || (w =? 0) = false.
Proof.
  intros Hh Hw. apply orb_false_iff. split; now apply Nat.eqb_neq.
Qed.

(** A table of the A*B family called with an empty contraction. *)
Lemma AB_zero_contraction (tbl : nat -> pmultABW) ADD POS (a b c : SliceMatrix RowMajor)
    (m : @Mem T) :
  (forall i ha wa wb a b c m, slot_covers 13 i wa ->
     gemm_pre ha wb wa (bare_at a) (bare_at b) (bare_at c) ->
     forall q, tbl i ha wa wb a b c m q
               = gemm_ref ADD POS ha wb wa (bare_at a) (bare_at b) (bare_at c) m q) ->
  Width a = 0 ->
  gemm_pre (Height a) (Width b) (Width a) (mat_at a) (mat_at b) (mat_at c) ->
  exists m',
    (if (Height a =? 0) || (Width b =? 0) then fun m => Some m
     else call_slot 14 tbl (Nat.min (Width a) 13)
            (fun f => f (Height a) (Width a) (Width b) (bare a) (bare b) (bare c))) m
    = Some m' /\
    (forall i j, i < Height a -> j < Width b ->
       m' (mat_at c i j) = gemm_value ADD POS (m (mat_at c i j)) zero) /\
    (forall q, (forall i j, i < Height a -> j < Width b -> q <> mat_at c i j) ->
       m' q = m q).
Proof.
  intros Htbl Hk Hpre.
  destruct (@guarded_AB_call tbl ADD POS a b c m Htbl Hpre) as (m' & Hrun & Href).
  exists m'. split; [exact Hrun|]. split.
  - intros i j Hi Hj. rewrite Href, gemm_ref_at by (trivial; apply Hpre).
    now rewrite Hk.
  - intros q Hq. rewrite Href. now apply gemm_ref_frame.
Qed.

(** C2, as the code has it.  [MultMatMat], [MinusMultAB], [AddAB] and
    [SubAB] return at once, leaving the whole memory as it is, when the
    height of A or the width of B is zero.  A width of A of zero alone
    is not guarded: the call then runs slot 0 of its table.  With
    tables that meet their contract and ring arithmetic, that call sets
    every element of C to zero for [MultMatMat] and [MinusMultAB], and
    leaves the memory as it was for [AddAB] and [SubAB]. *)
Theorem gemm_zero_size_behaviour (L : Ngblas) (a b c : SliceMatrix RowMajor) m :
  (Height a = 0 \/ Width b = 0 ->
   MultMatMat a b c m = Some m /\
   MinusMultAB a b c m = Some m /\
   AddAB a b c m = Some m /\
   SubAB a b c m = Some m) /\
  (Height a <> 0 -> Width b <> 0 -> Width a = 0 ->
   (MultMatMat a b c m
    = Some (dispatch_multAB 0 (Height a) 0 (Width b) (bare a) (bare b) (bare c) m) /\
    MinusMultAB a b c m
    = Some (dispatch_minusmultAB 0 (Height a) 0 (Width b) (bare a) (bare b) (bare c) m) /\
    AddAB a b c m
    = Some (dispatch_addAB 0 (Height a) 0 (Width b) (bare a) (bare b) (bare c) m) /\
    SubAB a b c m
    = Some (dispatch_subAB 0 (Height a) 0 (Width b) (bare a) (bare b) (bare c) m)) /\
   (Gemm_spec L -> Arith_laws ->
    gemm_pre (Height a) (Width b) (Width a) (mat_at a) (mat_at b) (mat_at c) ->
    (exists m', MultMatMat a b c m = Some m' /\
       (forall i j, i < Height a -> j < Width b -> m' (mat_at c i j) = zero) /\
       (forall q, (forall i j, i < Height a -> j < Width b -> q <> mat_at c i j) ->
          m' q = m q)) /\
    (exists m', MinusMultAB a b c m = Some m' /\
       (forall i j, i < Height a -> j < Width b -> m' (mat_at c i j) = zero) /\
       (forall q, (forall i j, i < Height a -> j < Width b -> q <> mat_at c i j) ->
          m' q = m q)) /\
    (exists m', AddAB a b c m = Some m' /\ forall q, m' q = m q) /\
    (exists m', SubAB a b c m = Some m' /\ forall q, m' q = m q))).
Proof.
  unfold MultMatMat, MinusMultAB, AddAB, SubAB. cbv zeta. split.
  - intros Hz.
    assert (Hg : (Height a =? 0) || (Width b =? 0) = true).
    { apply orb_true_iff. destruct Hz as [->| ->]; auto. }
    rewrite Hg. auto.
  - intros Hh Hw Hk. split.
    + rewrite (guard_is_false Hh Hw), Hk. repeat split.
    + intros HL laws Hpre.
      destruct (@AB_zero_contraction dispatch_multAB false true a b c m
                  (multAB_ok HL) Hk Hpre) as (m1 & R1 & V1 & F1).
      destruct (@AB_zero_contraction dispatch_minusmultAB false false a b c m
                  (minusmultAB_ok HL) Hk Hpre) as (m2 & R2 & V2 & F2).
      destruct (@AB_zero_contraction dispatch_addAB true true a b c m
                  (addAB_ok HL) Hk Hpre) as (m3 & R3 & V3 & F3).
      destruct (@AB_zero_contraction dispatch_subAB true false a b c m
                  (subAB_ok HL) Hk Hpre) as (m4 & R4 & V4 & F4).
      cbn [gemm_value] in V1, V2, V3, V4.
      split; [exists m1; auto|]. split.
      { exists m2. split; [exact R2|]. split; [|exact F2].
        intros i j Hi Hj. rewrite V2 by assumption. apply (opp_zero laws). }
      split.
      { exists m3. split; [exact R3|]. intros q.
        destruct (cell_dec (fun ij => mat_at c (fst ij) (snd ij))
                    (grid (Height a) (Width b)) q) as [([i j] & Hin & ->)|Hout].
        - apply in_grid in Hin as [Hi Hj]. cbn [fst snd].
          rewrite V3 by assumption. apply (add_zero_r laws).
        - apply F3. intros i j Hi Hj. apply (Hout (i, j)). now apply in_grid. }
      { exists m4. split; [exact R4|]. intros q.
        destruct (cell_dec (fun ij => mat_at c (fst ij) (snd ij))
                    (grid (Height a) (Width b)) q) as [([i j] & Hin & ->)|Hout].
        - apply in_grid in Hin as [Hi Hj]. cbn [fst snd].
          rewrite V4 by assumption. apply (sub_zero_r laws).
        - apply F4. intros i j Hi Hj. apply (Hout (i, j)). now apply in_grid. }
Qed.

Lemma gemm_pre_Trans {oa ob oc}
    (a : SliceMatrix oa) (b : SliceMatrix ob) (c : SliceMatrix oc) :
  gemm_pre (Height a) (Width b) (Width a) (mat_at a) (mat_at b) (mat_at c) ->
  gemm_pre (Width b) (Height a) (Width a)
    (mat_at (Trans b)) (mat_at (Trans a)) (mat_at (Trans c)).
Proof.
  intros (Hinj & Hna & Hnb). split; [|split].
  - intros j i j' i' Hj Hi Hj' Hi'. rewrite !mat_at_Trans. intros Heq.
    destruct (Hinj i j i' j'); auto.
  - intros j i j' p Hj Hi Hj' Hp. rewrite !mat_at_Trans. now apply Hnb.
  - intros j i p i' Hj Hi Hp Hi'. rewrite !mat_at_Trans. now apply Hna.
Qed.

(** C5, as the code has it.  Given tables and routines that meet their
    contract and ring arithmetic, for every ADD, POS and every ordering
    of the two operands and of the result, [NgGEMM<ADD,POS> (a,b,c)]
    returns the memory of the generic semantics (C = -A*B, C = A*B,
    C -= A*B, C += A*B).  The statement leaves one case out: ADD false,
    a column-major left operand with a row-major right one, and a
    contraction length of zero.  A column-major result is computed as
    [NgGEMM<ADD,POS> (Trans(b), Trans(a), Trans(c))].  With a row-major
    result, the operand orderings (row,row), (row,col) and (col,row)
    each end in one entry point of the library; two column-major
    operands end in the unspecialised template. *)
Theorem NgGEMM_computes_product (L : Ngblas) (HL : Gemm_spec L) (laws : Arith_laws) :
  (forall ADD POS orda ordb ordc
          (a : SliceMatrix orda) (b : SliceMatrix ordb) (c : SliceMatrix ordc) m,
     Height c = Height a -> Width c = Width b -> Height b = Width a ->
     gemm_pre (Height a) (Width b) (Width a) (mat_at a) (mat_at b) (mat_at c) ->
     (ADD = false -> orda = ColMajor -> ordb = RowMajor -> Width a <> 0) ->
     exists m', NgGEMM ADD POS a b c m = Some m' /\
       forall q, m' q = gemm_ref ADD POS (Height a) (Width b) (Width a)
                          (mat_at a) (mat_at b) (mat_at c) m q) /\
  (forall ADD POS orda ordb
          (a : SliceMatrix orda) (b : SliceMatrix ordb) (c : SliceMatrix ColMajor),
     NgGEMM ADD POS a b c = NgGEMM ADD POS (Trans b) (Trans a) (Trans c)) /\
  (forall a b c : SliceMatrix RowMajor,
     NgGEMM false true a b c = MultMatMat a b c /\
     NgGEMM true true a b c = AddAB a b c /\
     NgGEMM true false a b c = SubAB a b c /\
     NgGEMM false false a b c = MinusMultAB a b c) /\
  (forall (a : SliceMatrix RowMajor) (b : SliceMatrix ColMajor) (c : SliceMatrix RowMajor),
     NgGEMM false true a b c = MultABt a (Trans b) (bare c) /\
     NgGEMM true true a b c = AddABt a (Trans b) (bare c) /\
     (forall m, NgGEMM false false a b c m = Some (MinusMultABt a (Trans b) (bare c) m)) /\
     (forall m, NgGEMM true false a b c m = Some (SubABt a (Trans b) (bare c) m))) /\
  (forall ADD POS (a : SliceMatrix ColMajor) (b c : SliceMatrix RowMajor),
     NgGEMM ADD POS a b c = MatMat_AtB ADD POS (Trans a) b (bare c)) /\
  (forall ADD POS (a b : SliceMatrix ColMajor) (c : SliceMatrix RowMajor) m,
     NgGEMM ADD POS a b c m = Some (NgGEMM_generic ADD POS a b c m)).
Proof.
  split;
    [|repeat match goal with |- _ /\ _ => split end; intros;
      repeat match goal with |- _ /\ _ => split end; intros; reflexivity].
  intros ADD POS orda ordb ordc a b c m Hh Hw Hk Hpre Hcarve.
  destruct ordc; cbn [NgGEMM].
  - now apply NgGEMM_rowmajor_correct.
  - destruct (@NgGEMM_rowmajor_correct L HL laws ADD POS _ _ (Trans b) (Trans a) (Trans c) m)
      as (m' & Hrun & Hval).
    + exact Hw.
    + exact Hh.
    + change (gemm_pre (Width b) (Height a) (Height b)
                (mat_at (Trans b)) (mat_at (Trans a)) (mat_at (Trans c))).
      rewrite Hk. now apply gemm_pre_Trans.
    + change (Width (Trans b)) with (Height b). rewrite Hk.
      intros HA Hob Hoa. apply Hcarve; trivial.
      * now destruct orda.
      * now destruct ordb.
    + exists m'. split; [exact Hrun|]. intros q. rewrite Hval.
      change (gemm_ref ADD POS (Width b) (Height a) (Height b)
                (mat_at (Trans b)) (mat_at (Trans a)) (mat_at (Trans c)) m q
              = gemm_ref ADD POS (Height a) (Width b) (Width a)
                  (mat_at a) (mat_at b) (mat_at c) m q).
      rewrite Hk.
      rewrite <- (@gemm_ref_transposed laws ADD POS (Height a) (Width b) (Width a)
                    (mat_at a) (mat_at b) (mat_at c) m (proj1 Hpre) q).
      apply (f_equal (fun g : Mem => g q)).
      apply gemm_ref_ext; intros; apply mat_at_Trans.
Qed.

(** ** Matrices as values *)

Lemma nth_map_lt {A B} (f : A -> B) (l : list A) i d d' :
  i < length l -> nth i (map f l) d = f (nth i l d').
Proof.
  intros Hi. rewrite (nth_indep _ d (f d')) by now rewrite length_map.
  apply map_nth.
Qed.

(** A list is the table of its elements. *)
Lemma map_seq_nth {A} (f : nat -> A) (l : list A) d :
  (forall k, k < length l -> nth k l d = f k) ->
  map f (seq 0 (length l)) = l.
Proof.
  intros Hf. apply (nth_ext _ _ d d).
  - now rewrite length_map, length_seq.
  - intros k Hk. rewrite length_map, length_seq in Hk.
    rewrite (nth_map_lt f _ d 0) by now rewrite length_seq.
    rewrite seq_nth by assumption. symmetry. now apply Hf.
Qed.

Lemma entry_sub_block (A : Matrix) rows cols i j :
  i < length rows -> j < length cols ->
  entry (sub_block A rows cols) i j = entry A (nth i rows 0) (nth j cols 0).
Proof.
  intros Hi Hj. unfold entry at 1, sub_block.
  rewrite (nth_map_lt _ rows [] 0) by assumption.
  now rewrite (nth_map_lt _ cols zero 0).
Qed.

Lemma entry_mat_mul n w (A B : Matrix) i j :
  i < length A -> j < w ->
  entry (mat_mul n w A B) i j = sum_to n (fun p => mul (entry A i p) (entry B p j)).
Proof.
  intros Hi Hj. unfold entry at 1, mat_mul.
  rewrite (nth_map_lt _ A [] []) by assumption.
  rewrite (nth_map_lt _ (seq 0 w) zero 0) by now rewrite length_seq.
  now rewrite seq_nth.
Qed.

Lemma entry_mat_sub (A B : Matrix) i j :
  length A = length B -> i < length A ->
  length (nth i A []) = length (nth i B []) -> j < length (nth i A []) ->
  entry (mat_sub A B) i j = sub (entry A i j) (entry B i j).
Proof.
  intros Hlen Hi Hrow Hj. unfold entry at 1, mat_sub.
  rewrite (nth_map_lt _ (combine A B) [] ([], [])) by (rewrite length_combine; lia).
  rewrite combine_nth by assumption. cbn [fst snd].
  rewrite (nth_map_lt _ _ zero (zero, zero)) by (rewrite length_combine; lia).
  now rewrite combine_nth.
Qed.

Lemma length_sub_block (A : Matrix) rows cols : length (sub_block A rows cols) = length rows.
Proof. unfold sub_block. apply length_map. Qed.

Lemma row_sub_block (A : Matrix) rows cols i :
  i < length rows -> length (nth i (sub_block A rows cols) []) = length cols.
Proof.
  intros Hi. unfold sub_block. rewrite (nth_map_lt _ rows [] 0) by assumption.
  apply length_map.
Qed.

Lemma length_mat_mul n w (A B : Matrix) : length (mat_mul n w A B) = length A.
Proof. unfold mat_mul. apply length_map. Qed.

Lemma row_mat_mul n w (A B : Matrix) i :
  i < length A -> length (nth i (mat_mul n w A B) []) = w.
Proof.
  intros Hi. unfold mat_mul. rewrite (nth_map_lt _ A [] []) by assumption.
  now rewrite length_map, length_seq.
Qed.

(** Matrices with the same shape and the same entries are equal. *)
Lemma matrix_ext (A B : Matrix) :
  length A = length B ->
  (forall i, i < length A -> length (nth i A []) = length (nth i B [])) ->
  (forall i j, i < length A -> j < length (nth i A []) -> entry A i j = entry B i j) ->
  A = B.
Proof.
  intros Hlen Hrows Hent. apply (nth_ext _ _ [] []); [assumption|].
  intros i Hi. apply (nth_ext _ _ zero zero); [now apply Hrows|].
  intros j Hj. now apply Hent.
Qed.

Lemma indices_where_all flag (used : list bool) :
  forallb (fun b => Bool.eqb b flag) used = true ->
  indices_where flag used = seq 0 (length used) /\
  indices_where (negb flag) used = [].
Proof.
  intros Hall. rewrite forallb_forall in Hall. unfold indices_where.
  assert (Hbit : forall i, In i (seq 0 (length used)) -> nth i used false = flag).
  { intros i Hi. apply in_seq in Hi. apply eqb_prop, Hall, nth_In. lia. }
  split.
  - apply forallb_filter_id, forallb_forall. intros i Hi.
    rewrite (Hbit i Hi). apply eqb_reflx.
  - induction (seq 0 (length used)) as [|i l IH]; [reflexivity|].
    cbn [filter]. rewrite (Hbit i) by now left.
    replace (Bool.eqb flag (negb flag)) with false by now destruct flag.
    apply IH. intros i' Hi'. apply Hbit. now right.
Qed.

(** ** Schur complement *)

Section Schur.

Variable CalcInverse : @Matrix T -> @Matrix T.
Variable A : @Matrix T.
Variable used : list bool.

Let k := indices_where false used.
Let e := indices_where true used.
Let S := CalcSchurComplement CalcInverse A used.

Lemma Schur_shape :
  length S = length k /\ forall i, i < length k -> length (nth i S []) = length k.
Proof.
  unfold S, CalcSchurComplement, mat_sub. fold k e.
  split.
  - now rewrite length_map, length_combine, length_sub_block, !length_mat_mul,
      length_sub_block, Nat.min_id.
  - intros i Hi.
    rewrite (nth_map_lt _ _ [] ([], []))
      by now rewrite length_combine, length_sub_block, !length_mat_mul,
           length_sub_block, Nat.min_id.
    rewrite combine_nth
      by now rewrite length_sub_block, !length_mat_mul, length_sub_block.
    cbn [fst snd].
    rewrite length_map, length_combine, row_sub_block, row_mat_mul; trivial.
    + apply Nat.min_id.
    + now rewrite length_mat_mul, length_sub_block.
Qed.

Lemma Schur_entry i j :
  i < length k -> j < length k ->
  entry S i j
  = sub (entry A (nth i k 0) (nth j k 0))
      (sum_to (length e) (fun q =>
         mul (sum_to (length e) (fun p =>
                mul (entry A (nth i k 0) (nth p e 0))
                    (entry (CalcInverse (sub_block A e e)) p q)))
             (entry A (nth q e 0) (nth j k 0)))).
Proof.
  intros Hi Hj. unfold S, CalcSchurComplement. fold k e.
  rewrite entry_mat_sub.
  - rewrite entry_sub_block by assumption. f_equal.
    rewrite entry_mat_mul by now rewrite ?length_mat_mul, ?length_sub_block.
    apply sum_to_ext. intros q Hq.
    rewrite entry_mat_mul by now rewrite ?length_sub_block.
    rewrite entry_sub_block by assumption. f_equal.
    apply sum_to_ext. intros p Hp. now rewrite entry_sub_block.
  - now rewrite length_sub_block, !length_mat_mul, length_sub_block.
  - now rewrite length_sub_block.
  - rewrite row_sub_block, row_mat_mul; trivial.
    now rewrite length_mat_mul, length_sub_block.
  - now rewrite row_sub_block.
Qed.

End Schur.

(** ** Multi-vector operations *)

Lemma entry_identity n i j :
  i < n -> j < n -> entry (identity n) i j = if i =? j then one else zero.
Proof.
  intros Hi Hj. unfold entry, identity.
  rewrite (nth_map_lt _ (seq 0 n) [] 0) by now rewrite length_seq.
  rewrite (nth_map_lt _ (seq 0 n) zero 0) by now rewrite length_seq.
  now rewrite !seq_nth.
Qed.

(** A sum against a row of the identity picks one term. *)
Lemma sum_to_delta (laws : Arith_laws) n i (f : nat -> T) :
  sum_to n (fun j => mul (if i =? j then one else zero) (f j))
  = if i <? n then f i else zero.
Proof.
  induction n as [|n IH]; [reflexivity|].
  cbn [sum_to]. rewrite IH.
  destruct (Nat.ltb_spec i n) as [Hlt|Hge].
  - replace (i =? n) with false by (symmetry; apply Nat.eqb_neq; lia).
    replace (i <? S n) with true by (symmetry; apply Nat.ltb_lt; lia).
    now rewrite (mul_zero_l laws), (add_zero_r laws).
  - destruct (Nat.eqb_spec i n) as [->|Hne].
    + replace (n <? S n) with true by (symmetry; apply Nat.ltb_lt; lia).
      now rewrite (mul_one_l laws), (add_zero_l laws).
    + replace (i <? S n) with false by (symmetry; apply Nat.ltb_ge; lia).
      now rewrite (mul_zero_l laws), (add_zero_r laws).
Qed.

Lemma vec_add_zero_l (laws : Arith_laws) (u v : list T) :
  length u = length v -> Forall (fun t => t = zero) u -> vec_add u v = v.
Proof.
  revert v. induction u as [|t u IH]; intros [|s v] Hlen Hz; try discriminate;
    [reflexivity|].
  inversion Hz as [|? ? -> Hz']; subst. unfold vec_add in *. cbn [combine map fst snd].
  rewrite (add_zero_l laws). f_equal. apply IH; [now injection Hlen|assumption].
Qed.

(** The multi-vector operations, as the model has them.
    [PairwiseInnerProduct (x, x, ip)] fills
    ip(i,j) = <x_i, x_j>.  [MultiVectorAdd] with the identity as
    coefficient matrix adds vector i of its second collection to vector
    i of its first: the result is z_i + x_i, which is x_i again when
    the first collection starts from zero vectors.  The vectors
    have n elements each and the two collections the same number of
    vectors; the arithmetic is that of a ring. *)
Theorem MultiVectorAdd_identity_adds (laws : Arith_laws) (n : nat) (x z : list (list T)) :
  length z = length x ->
  Forall (fun v => length v = n) x ->
  Forall (fun v => length v = n) z ->
  (forall i j, i < length x -> j < length x ->
     entry (PairwiseInnerProduct n x x) i j = InnerProduct n (nth i x []) (nth j x [])) /\
  MultiVectorAdd n z x (identity (length x))
  = map (fun zx => vec_add (fst zx) (snd zx)) (combine z x) /\
  (Forall (Forall (fun t => t = zero)) z ->
   MultiVectorAdd n z x (identity (length x)) = x).
Proof.
  intros Hlen Hx Hz.
  assert (Hadd : MultiVectorAdd n z x (identity (length x))
                 = map (fun zx => vec_add (fst zx) (snd zx)) (combine z x)).
  { unfold MultiVectorAdd.
    replace (length z) with (length (map (fun zx => vec_add (fst zx) (snd zx)) (combine z x)))
      by (rewrite length_map, length_combine; lia).
    apply (map_seq_nth _ _ []).
    intros i Hi. rewrite length_map, length_combine in Hi.
    rewrite (nth_map_lt _ _ [] ([], [])) by (rewrite length_combine; lia).
    rewrite combine_nth by assumption. cbn [fst snd].
    rewrite Forall_forall in Hx, Hz.
    assert (Hxi : length (nth i x []) = n) by (apply Hx, nth_In; lia).
    assert (Hzi : length (nth i z []) = n) by (apply Hz, nth_In; lia).
    unfold vec_add.
    replace n with (length (map (fun xy => add (fst xy) (snd xy))
                              (combine (nth i z []) (nth i x []))))
      by (rewrite length_map, length_combine; lia).
    symmetry. apply (map_seq_nth _ _ zero).
    intros k0 Hk0. rewrite length_map, length_combine in Hk0.
    rewrite (nth_map_lt _ _ zero (zero, zero)) by (rewrite length_combine; lia).
    rewrite combine_nth by lia. cbn [fst snd]. f_equal.
    rewrite (@sum_to_ext (length x)
               (fun j => mul (entry (identity (length x)) i j) (nth k0 (nth j x []) zero))
               (fun j => mul (if i =? j then one else zero) (nth k0 (nth j x []) zero))).
    - rewrite (sum_to_delta laws).
      replace (i <? length x) with true by (symmetry; apply Nat.ltb_lt; lia).
      reflexivity.
    - intros j Hj. rewrite entry_identity by lia. reflexivity. }
  split; [|split; [exact Hadd|]].
  - intros i j Hi Hj. unfold entry, PairwiseInnerProduct.
    rewrite (nth_map_lt _ x [] []) by assumption.
    now rewrite (nth_map_lt _ x zero []).
  - intros Hzero. rewrite Hadd. clear Hadd.
    revert z Hlen Hz Hzero. induction x as [|v x IH]; intros [|u z] Hlen Hz Hzero;
      try discriminate; [reflexivity|].
    cbn [combine map fst snd].
    inversion Hx; inversion Hz; inversion Hzero; subst.
    f_equal.
    + apply (vec_add_zero_l laws); [congruence|assumption].
    + apply IH; trivial. now injection Hlen.
Qed.

(** Sums over a ring. *)

Section RingSums.

Hypothesis Tring : ring_theory zero one add mul sub opp (@eq T).

Add Ring T_ring : Tring.

Lemma ring_Arith_laws : Arith_laws.
Proof. split; intros; ring. Qed.

Lemma sum_to_add n (f g : nat -> T) :
  sum_to n (fun i => add (f i) (g i)) = add (sum_to n f) (sum_to n g).
Proof.
  induction n as [|n IH]; cbn [sum_to]; [ring|]. rewrite IH. ring.
Qed.

Lemma sum_to_scale_l n (c : T) (f : nat -> T) :
  sum_to n (fun i => mul c (f i)) = mul c (sum_to n f).
Proof.
  induction n as [|n IH]; cbn [sum_to]; [ring|]. rewrite IH. ring.
Qed.

Lemma sum_to_scale_r n (c : T) (f : nat -> T) :
  sum_to n (fun i => mul (f i) c) = mul (sum_to n f) c.
Proof.
  induction n as [|n IH]; cbn [sum_to]; [ring|]. rewrite IH. ring.
Qed.

Lemma sum_to_all_zero n (f : nat -> T) :
  (forall i, i < n -> f i = zero) -> sum_to n f = zero.
Proof.
  induction n as [|n IH]; intros Hf; cbn [sum_to]; [reflexivity|].
  rewrite IH, Hf by auto. ring.
Qed.

Lemma sum_to_swap n k (f : nat -> nat -> T) :
  sum_to n (fun i => sum_to k (fun j => f i j))
  = sum_to k (fun j => sum_to n (fun i => f i j)).
Proof.
  induction n as [|n IH]; cbn [sum_to].
  - symmetry. now apply sum_to_all_zero.
  - rewrite IH. symmetry. apply sum_to_add.
Qed.

(** A row times (a matrix times a column) is (the row times the matrix)
    times the column. *)
Lemma sum_to_assoc n k (F : nat -> T) (G : nat -> nat -> T) (h : nat -> T) :
  sum_to n (fun p => mul (F p) (sum_to k (fun r => mul (G p r) (h r))))
  = sum_to k (fun r => mul (sum_to n (fun p => mul (F p) (G p r))) (h r)).
Proof.
  rewrite (@sum_to_ext n _
             (fun p => sum_to k (fun r => mul (mul (F p) (G p r)) (h r)))).
  - rewrite sum_to_swap. apply sum_to_ext. intros r _. apply sum_to_scale_r.
  - intros p _. rewrite <- sum_to_scale_l. apply sum_to_ext. intros r _. ring.
Qed.

(** Block elimination on matrices given entry by entry: if [Inv] is a
    left inverse of the block [Aee] and the eliminated equations
    Aek xk + Aee xe = 0 hold, the kept rows of the full system act on
    xk as Akk - Ake Inv Aek does. *)
Lemma block_elimination nk ne (Akk Ake Aek Aee Inv : nat -> nat -> T) (xk xe : nat -> T) :
  (forall p q, p < ne -> q < ne ->
     sum_to ne (fun r => mul (Inv p r) (Aee r q)) = if p =? q then one else zero) ->
  (forall q, q < ne ->
     add (sum_to nk (fun j => mul (Aek q j) (xk j)))
         (sum_to ne (fun p => mul (Aee q p) (xe p))) = zero) ->
  forall i,
    add (sum_to nk (fun j => mul (Akk i j) (xk j)))
        (sum_to ne (fun p => mul (Ake i p) (xe p)))
    = sum_to nk (fun j =>
        mul (sub (Akk i j)
               (sum_to ne (fun q =>
                  mul (sum_to ne (fun p => mul (Ake i p) (Inv p q))) (Aek q j))))
            (xk j)).
Proof.
  intros Hinv Helim i.
  pose (b := fun r => sum_to nk (fun j => mul (Aek r j) (xk j))).
  assert (Hxe : forall p, p < ne ->
            xe p = opp (sum_to ne (fun r => mul (Inv p r) (b r)))).
  { intros p Hp.
    assert (E0 : sum_to ne (fun r =>
                   mul (Inv p r)
                       (add (b r) (sum_to ne (fun q => mul (Aee r q) (xe q))))) = zero).
    { apply sum_to_all_zero. intros r Hr. unfold b. rewrite Helim by assumption. ring. }
    rewrite (@sum_to_ext ne _
               (fun r => add (mul (Inv p r) (b r))
                             (mul (Inv p r) (sum_to ne (fun q => mul (Aee r q) (xe q))))))
      in E0 by (intros; ring).
    rewrite sum_to_add, sum_to_assoc in E0.
    rewrite (@sum_to_ext ne (fun r => mul (sum_to ne (fun p0 => mul (Inv p p0) (Aee p0 r))) (xe r))
               (fun q => mul (if p =? q then one else zero) (xe q))) in E0
      by (intros q Hq; now rewrite Hinv).
    rewrite (sum_to_delta ring_Arith_laws) in E0.
    replace (p <? ne) with true in E0 by (symmetry; now apply Nat.ltb_lt).
    replace (xe p)
      with (sub (add (sum_to ne (fun r => mul (Inv p r) (b r))) (xe p))
                (sum_to ne (fun r => mul (Inv p r) (b r)))) by ring.
    rewrite E0. ring. }
  assert (Hke : sum_to ne (fun p => mul (Ake i p) (xe p))
                = opp (sum_to nk (fun j =>
                    mul (sum_to ne (fun q =>
                           mul (sum_to ne (fun p => mul (Ake i p) (Inv p q))) (Aek q j)))
                        (xk j)))).
  { rewrite (@sum_to_ext ne _
               (fun p => opp (mul (Ake i p) (sum_to ne (fun r => mul (Inv p r) (b r))))))
      by (intros p Hp; rewrite (Hxe p Hp); ring).
    rewrite (sum_to_opp ring_Arith_laws), sum_to_assoc. unfold b.
    now rewrite sum_to_assoc. }
  rewrite Hke.
  rewrite (@sum_to_ext nk
             (fun j => mul (sub (Akk i j) _) (xk j))
             (fun j => add (mul (Akk i j) (xk j))
                (opp (mul (sum_to ne (fun q =>
                             mul (sum_to ne (fun p => mul (Ake i p) (Inv p q))) (Aek q j)))
                          (xk j)))))
    by (intros; ring).
  now rewrite sum_to_add, (sum_to_opp ring_Arith_laws).
Qed.

End RingSums.

(** C3.  [CalcSchurComplement] is S = A_kk - A_ke A_ee^-1 A_ek over the
    indices that [used] does not mark.  S has one row and one column per
    kept index, and its (i,j) entry is the (k_i,k_j) entry of A minus the
    (i,j) entry of the triple product through the eliminated indices.
    With a routine that returns a left inverse of the eliminated block,
    S is the condensed system: whenever the eliminated rows of A (x_k,
    x_e) vanish, the kept rows of A (x_k, x_e) are S x_k.  For a square
    A, if no index is marked S is A itself, and if every index is
    marked S is empty.  The arithmetic is that of a commutative ring. *)
Theorem CalcSchurComplement_kept_block
    (Tring : ring_theory zero one add mul sub opp (@eq T))
    (CalcInverse : @Matrix T -> @Matrix T) (A : @Matrix T) (used : list bool) :
  let k := indices_where false used in
  let e := indices_where true used in
  let S := CalcSchurComplement CalcInverse A used in
  let Inv := CalcInverse (sub_block A e e) in
  (length S = length k /\
   (forall i, i < length k -> length (nth i S []) = length k) /\
   forall i j, i < length k -> j < length k ->
     entry S i j
     = sub (entry A (nth i k 0) (nth j k 0))
         (sum_to (length e) (fun q =>
            mul (sum_to (length e) (fun p =>
                   mul (entry A (nth i k 0) (nth p e 0)) (entry Inv p q)))
                (entry A (nth q e 0) (nth j k 0))))) /\
  (inverts CalcInverse (sub_block A e e) ->
   forall xk xe : nat -> T,
     (forall q, q < length e ->
        add (sum_to (length k) (fun j => mul (entry A (nth q e 0) (nth j k 0)) (xk j)))
            (sum_to (length e) (fun p => mul (entry A (nth q e 0) (nth p e 0)) (xe p)))
        = zero) ->
     forall i, i < length k ->
       add (sum_to (length k) (fun j => mul (entry A (nth i k 0) (nth j k 0)) (xk j)))
           (sum_to (length e) (fun p => mul (entry A (nth i k 0) (nth p e 0)) (xe p)))
       = sum_to (length k) (fun j => mul (entry S i j) (xk j))) /\
  (length A = length used -> Forall (fun r => length r = length used) A ->
   forallb (fun b => Bool.eqb b false) used = true -> S = A) /\
  (forallb (fun b => Bool.eqb b true) used = true -> S = []).
Proof.
  intros k e S Inv.
  destruct (Schur_shape CalcInverse A used) as [Hlen Hrows].
  pose proof (Schur_entry CalcInverse A used) as Hent.
  fold k e S Inv in Hlen, Hrows, Hent.
  split; [auto|]. split; [|split].
  - intros Hinv0 xk xe Helim i Hi.
    assert (Hinv : forall p q, p < length e -> q < length e ->
              sum_to (length e) (fun r =>
                mul (entry Inv p r) (entry A (nth r e 0) (nth q e 0)))
              = if p =? q then one else zero).
    { intros p q Hp Hq. unfold inverts in Hinv0.
      rewrite length_sub_block in Hinv0. rewrite <- (Hinv0 p q Hp Hq).
      apply sum_to_ext. intros r Hr. now rewrite entry_sub_block. }
    rewrite (@sum_to_ext (length k) (fun j => mul (entry S i j) (xk j))
               (fun j => mul (sub (entry A (nth i k 0) (nth j k 0))
                  (sum_to (length e) (fun q =>
                     mul (sum_to (length e) (fun p =>
                            mul (entry A (nth i k 0) (nth p e 0)) (entry Inv p q)))
                         (entry A (nth q e 0) (nth j k 0))))) (xk j)))
      by (intros j Hj; now rewrite Hent).
    apply (@block_elimination Tring (length k) (length e)
             (fun i j => entry A (nth i k 0) (nth j k 0))
             (fun i p => entry A (nth i k 0) (nth p e 0))
             (fun q j => entry A (nth q e 0) (nth j k 0))
             (fun q p => entry A (nth q e 0) (nth p e 0))
             (entry Inv) xk xe Hinv Helim i).
  - intros HA Hsq Hnone.
    destruct (indices_where_all false used Hnone) as [Hk He].
    cbn [negb] in He. fold k in Hk. fold e in He.
    assert (Hlk : length k = length used) by now rewrite Hk, length_seq.
    rewrite Forall_forall in Hsq.
    assert (HrowA : forall i, i < length used -> length (nth i A []) = length used).
    { intros i Hi. apply Hsq, nth_In. lia. }
    apply matrix_ext.
    + lia.
    + intros i Hi. rewrite Hrows, HrowA; lia.
    + intros i j Hi Hj. rewrite Hrows in Hj by lia.
      rewrite Hent by lia. rewrite He. cbn [length sum_to].
      rewrite (sub_zero_r (ring_Arith_laws Tring)), Hk, !seq_nth by lia. reflexivity.
  - intros Hall.
    destruct (indices_where_all true used Hall) as [_ Hk].
    cbn [negb] in Hk. fold k in Hk.
    rewrite Hk in Hlen. now destruct S.
Qed.

End Properties.

(** * Further properties of the entry points *)

Section EntryPointProperties.

Context {T : Type} {AT : Arith T}.

Implicit Types m : @Mem T.

(** ** Matrix-vector products, cell by cell *)

Lemma FlatVector_elem_inj (y : FlatVector) i j : elem y i = elem y j -> i = j.
Proof. cbn. lia. Qed.

Lemma gemv_ref_frame scale fa (x y : FlatVector) m q :
  (forall i, i < Size y -> q <> elem y i) ->
  gemv_ref scale fa x y m q = m q.
Proof.
  intros Hq. unfold gemv_ref. apply sweep_frame.
  intros i Hi. apply in_seq in Hi. apply Hq. lia.
Qed.

Lemma gemv_ref_at scale fa (x y : FlatVector) m i :
  i < Size y ->
  gemv_ref scale fa x y m (elem y i)
  = let s := sum_to (Size x) (fun j => mul (m (fa i j)) (m (elem x j))) in
    match scale with
    | None => s
    | Some sc => add (m (elem y i)) (mul sc s)
    end.
Proof.
  intros Hi. unfold gemv_ref.
  apply (sweep_at (elem y) _
           (fun i => let s := sum_to (Size x) (fun j => mul (m (fa i j)) (m (elem x j))) in
                     match scale with
                     | None => s
                     | Some sc => add (m (elem y i)) (mul sc s)
                     end)
           (seq 0 (Size y)) m).
  - apply NoDup_range_addr. intros a b _ _. apply FlatVector_elem_inj.
  - reflexivity.
  - apply in_seq. lia.
Qed.

(** A clamped call through a table whose slots agree with [ref] on the
    key they serve returns [ref]. *)
Lemma clamped_slot_ref {K} len (tbl : nat -> K) key (run : K -> @Mem T -> @Mem T)
    (ref : @Mem T) m :
  0 < len ->
  (forall i, slot_covers (len - 1) i key -> forall q, run (tbl i) m q = ref q) ->
  exists m', call_slot len tbl (Nat.min key (len - 1)) run m = Some m' /\
    forall q, m' q = ref q.
Proof.
  intros Hlen Hslot. rewrite call_slot_lt by lia.
  eexists. split; [reflexivity|]. apply Hslot, slot_covers_min.
Qed.

Lemma gemv_post_of_ref (laws : Arith_laws)
    (sub_opp : forall u v : T, sub u v = add u (opp v))
    ADD POS scale fa (x y : FlatVector) m m' :
  match ADD, POS with
  | false, true => scale = None
  | true, true => scale = Some one
  | true, false => scale = Some (opp one)
  | false, false => False
  end ->
  (forall q, m' q = gemv_ref scale fa x y m q) ->
  gemv_post ADD POS (Size x) fa x y m m'.
Proof.
  intros Hscale Href. split.
  - intros i Hi. rewrite Href, gemv_ref_at by assumption. cbv zeta.
    destruct ADD, POS; try contradiction; subst scale; cbn [gemm_value].
    + now rewrite (mul_one_l laws).
    + now rewrite (mul_opp_one_l laws), sub_opp.
    + reflexivity.
  - intros q Hq. rewrite Href. now apply gemv_ref_frame.
Qed.

Lemma NgGEMV_generic_post (laws : Arith_laws) ADD POS {ord}
    (a : SliceMatrix ord) (x y : FlatVector) m :
  gemv_post ADD POS (Width a) (mat_at a) x y m (NgGEMV_generic ADD POS a x y m).
Proof.
  unfold NgGEMV_generic. split.
  - intros i Hi.
    assert (H1 : sum_to (Width a) (fun j => mul (mul one (m (mat_at a i j))) (m (elem x j)))
                 = sum_to (Width a) (fun j => mul (m (mat_at a i j)) (m (elem x j)))).
    { apply sum_to_ext. intros p _. now rewrite (mul_one_l laws). }
    rewrite (sweep_at (elem y) _
               (fun i => gemm_value ADD POS (m (elem y i))
                           (sum_to (Width a)
                              (fun j => mul (m (mat_at a i j)) (m (elem x j)))))
               (seq 0 (Size y)) m); trivial.
    + apply NoDup_range_addr. intros u v _ _. apply FlatVector_elem_inj.
    + intros c m0 _ _ _.
      assert (Hc : sum_to (Width a)
                     (fun j => mul (mul one (m (mat_at a c j))) (m (elem x j)))
                   = sum_to (Width a) (fun j => mul (m (mat_at a c j)) (m (elem x j)))).
      { apply sum_to_ext. intros p _. now rewrite (mul_one_l laws). }
      destruct ADD, POS; cbn [negb gemm_value]; rewrite ?Hc; try reflexivity.
      rewrite <- (sum_to_opp laws). apply sum_to_ext. intros p _.
      now rewrite (mul_opp_one_l laws), (mul_opp_l laws).
    + apply in_seq. lia.
  - intros q Hq. apply sweep_frame. intros i Hi. apply in_seq in Hi. apply Hq. lia.
Qed.

(** X1.  [NgGEMV<ADD,POS> (a, x, y)], for either ordering of [a] and
    all four policies, stores in y[i] the policy's combination of the
    old y[i] with sum_j a(i,j)*x[j] (y = A x, y = -A x, y += A x,
    y -= A x) and changes no other address.  The tables meet their
    contract, x has as many elements as [a] has columns, y does not
    overlap x or [a], and the arithmetic is that of a ring. *)
Theorem NgGEMV_stores_product (L : Ngblas) (HL : Gemv_spec L) (laws : Arith_laws)
    (sub_opp : forall u v : T, sub u v = add u (opp v))
    ADD POS {ord} (a : SliceMatrix ord) (x y : FlatVector) m :
  Size x = Width a ->
  gemv_pre (mat_at a) x y ->
  exists m', NgGEMV ADD POS a x y m = Some m' /\
    gemv_post ADD POS (Width a) (mat_at a) x y m m'.
Proof.
  intros Hx Hpre.
  assert (Hgen : exists m', Some (NgGEMV_generic false false a x y m) = Some m' /\
            gemv_post false false (Width a) (mat_at a) x y m m').
  { eexists. split; [reflexivity|]. apply (NgGEMV_generic_post laws). }
  destruct ord; cbn [NgGEMV]; destruct ADD, POS; trivial;
    unfold MultMatVec, MultAddMatVec, MultMatTransVec, MultAddMatTransVec; cbv zeta.
  - destruct (@clamped_slot_ref _ size_dispatch_addmatvec dispatch_addmatvec (Size x)
                (fun f => f one (bare a) x y)
                (gemv_ref (Some one) (mat_at a) x y m) m) as (m' & Hrun & Href).
    + unfold size_dispatch_addmatvec. lia.
    + intros i Hi q. now apply (addmatvec_ok HL).
    + exists m'. split; [exact Hrun|]. rewrite <- Hx.
      now apply (gemv_post_of_ref laws sub_opp true true (Some one)).
  - destruct (@clamped_slot_ref _ size_dispatch_addmatvec dispatch_addmatvec (Size x)
                (fun f => f (opp one) (bare a) x y)
                (gemv_ref (Some (opp one)) (mat_at a) x y m) m) as (m' & Hrun & Href).
    + unfold size_dispatch_addmatvec. lia.
    + intros i Hi q. now apply (addmatvec_ok HL).
    + exists m'. split; [exact Hrun|]. rewrite <- Hx.
      now apply (gemv_post_of_ref laws sub_opp true false (Some (opp one))).
  - destruct (@clamped_slot_ref _ size_dispatch_matvec dispatch_matvec (Size x)
                (fun f => f (bare a) x y)
                (gemv_ref None (mat_at a) x y m) m) as (m' & Hrun & Href).
    + unfold size_dispatch_matvec. lia.
    + intros i Hi q. now apply (matvec_ok HL).
    + exists m'. split; [exact Hrun|]. rewrite <- Hx.
      now apply (gemv_post_of_ref laws sub_opp false true None).
  - destruct (@clamped_slot_ref _ size_dispatch_addmattransvec dispatch_addmattransvec
                (Size x) (fun f => f one (bare (Trans a)) x y)
                (gemv_ref (Some one) (mat_at a) x y m) m) as (m' & Hrun & Href).
    + unfold size_dispatch_addmattransvec. lia.
    + intros i Hi q. pose proof (addmattransvec_ok HL) as Hc.
      exact (Hc i one (bare (Trans a)) x y m Hi Hpre q).
    + exists m'. split; [exact Hrun|]. rewrite <- Hx.
      now apply (gemv_post_of_ref laws sub_opp true true (Some one)).
  - destruct (@clamped_slot_ref _ size_dispatch_addmattransvec dispatch_addmattransvec
                (Size x) (fun f => f (opp one) (bare (Trans a)) x y)
                (gemv_ref (Some (opp one)) (mat_at a) x y m) m) as (m' & Hrun & Href).
    + unfold size_dispatch_addmattransvec. lia.
    + intros i Hi q. pose proof (addmattransvec_ok HL) as Hc.
      exact (Hc i (opp one) (bare (Trans a)) x y m Hi Hpre q).
    + exists m'. split; [exact Hrun|]. rewrite <- Hx.
      now apply (gemv_post_of_ref laws sub_opp true false (Some (opp one))).
  - destruct (@clamped_slot_ref _ size_dispatch_mattransvec dispatch_mattransvec
                (Size x) (fun f => f (bare (Trans a)) x y)
                (gemv_ref None (mat_at a) x y m) m) as (m' & Hrun & Href).
    + unfold size_dispatch_mattransvec. lia.
    + intros i Hi q. pose proof (mattransvec_ok HL) as Hc.
      exact (Hc i (bare (Trans a)) x y m Hi Hpre q).
    + exists m'. split; [exact Hrun|]. rewrite <- Hx.
      now apply (gemv_post_of_ref laws sub_opp false true None).
Qed.

(** X2.  The overload of [MultAddMatVec] for a column-major matrix
    adds s * sum_j a(i,j)*x[j] to y[i], a(i,j) read through the
    column-major view, and changes no other address.  It runs through
    the table of the transposed product, whose last slot is 12, so the
    clamp is at 12 and not at the 24 of the row-major overload. *)
Theorem MultAddMatVec_ColMajor_adds_product (L : Ngblas) (HL : Gemv_spec L)
    (s : T) (a : BareSliceMatrix ColMajor) (x y : FlatVector) m :
  gemv_pre (bare_at a) x y ->
  exists m', MultAddMatVec_ColMajor s a x y m = Some m' /\
    m' = dispatch_addmattransvec (Nat.min (Size x) 12) s (bTrans a) x y m /\
    (forall i, i < Size y ->
       m' (elem y i)
       = add (m (elem y i))
           (mul s (sum_to (Size x) (fun j => mul (m (bare_at a i j)) (m (elem x j)))))) /\
    (forall q, (forall i, i < Size y -> q <> elem y i) -> m' q = m q).
Proof.
  intros Hpre. unfold MultAddMatVec_ColMajor, MultAddMatTransVec. cbv zeta.
  rewrite call_slot_lt by (unfold size_dispatch_addmattransvec; lia).
  eexists. split; [reflexivity|]. split; [reflexivity|].
  pose proof (addmattransvec_ok HL) as Hc.
  assert (Href : forall q,
            dispatch_addmattransvec (Nat.min (Size x) (size_dispatch_addmattransvec - 1))
              s (bTrans a) x y m q
            = gemv_ref (Some s) (bare_at a) x y m q).
  { intros q. exact (Hc _ s (bTrans a) x y m (slot_covers_min _ _) Hpre q). }
  split.
  - intros i Hi. unfold size_dispatch_addmattransvec in Href. cbn [Nat.sub] in Href.
    rewrite Href. now rewrite gemv_ref_at.
  - intros q Hq. unfold size_dispatch_addmattransvec in Href. cbn [Nat.sub] in Href.
    rewrite Href. now apply gemv_ref_frame.
Qed.

(** ** The threshold dispatchers *)

(** X3.  [MultABt], [AddABt] and [MultAddMatTransVecIndirect] test their
    key against 24 before they index a table of 25 slots: for every
    input the call returns, through slot [key] when the key is at most
    24 and through the non-dispatched routine otherwise.  No table is
    read out of bounds. *)
Theorem threshold_dispatch_in_bounds (L : Ngblas)
    (s : T) (a b : SliceMatrix RowMajor) (c ba : BareSliceMatrix RowMajor)
    (x y : FlatVector) (ind : list nat) m :
  MultABt a b c m
  = Some (if Width a <=? 24
          then dispatch_abt (Width a) (Height a) (Height b) (bare a) (bare b) c m
          else MultABt_intern a b c m) /\
  AddABt a b c m
  = Some (if Width a <=? 24
          then dispatch_addabt (Width a) (Height a) (Height b) (bare a) (bare b) c m
          else AddABt_intern a b c m) /\
  MultAddMatTransVecIndirect s ba x y ind m
  = Some (if Size y <=? 24
          then dispatch_addmattransvecI (Size y) s ba x y ind m
          else MultAddMatTransVecIndirect_intern s ba x y ind m).
Proof.
  unfold MultABt, AddABt, MultAddMatTransVecIndirect. cbv zeta.
  repeat match goal with |- _ /\ _ => split end;
    match goal with |- context [?k <=? 24] => destruct (Nat.leb_spec k 24) end;
    try reflexivity;
    apply call_slot_lt;
    unfold size_dispatch_abt, size_dispatch_addabt, size_dispatch_addmattransvecI; lia.
Qed.

(** ** Matrix-matrix products, cell by cell *)

Lemma gemm_post_of_ref ADD POS h w k fa fb fc m m' :
  (forall i j i' j', i < h -> j < w -> i' < h -> j' < w ->
     fc i j = fc i' j' -> i = i' /\ j = j') ->
  (forall q, m' q = gemm_ref ADD POS h w k fa fb fc m q) ->
  gemm_post ADD POS h w k fa fb fc m m'.
Proof.
  intros Hinj Href. split.
  - intros i j Hi Hj. rewrite Href. now apply gemm_ref_at.
  - intros q Hq. rewrite Href. now apply gemm_ref_frame.
Qed.

(** X4.  [MultMatMat], [MinusMultAB], [AddAB] and [SubAB] store
    C = A*B, C = -A*B, C += A*B and C -= A*B cell by cell and change
    nothing else, for every shape: an empty result (where they return
    at once) and a contraction length of zero or beyond the table
    included.  The tables meet their contract and C overlaps neither
    operand. *)
Theorem AB_family_stores_product (L : Ngblas) (HL : Gemm_spec L)
    (a b c : SliceMatrix RowMajor) m :
  gemm_pre (Height a) (Width b) (Width a) (mat_at a) (mat_at b) (mat_at c) ->
  (exists m', MultMatMat a b c m = Some m' /\
     gemm_post false true (Height a) (Width b) (Width a)
       (mat_at a) (mat_at b) (mat_at c) m m') /\
  (exists m', MinusMultAB a b c m = Some m' /\
     gemm_post false false (Height a) (Width b) (Width a)
       (mat_at a) (mat_at b) (mat_at c) m m') /\
  (exists m', AddAB a b c m = Some m' /\
     gemm_post true true (Height a) (Width b) (Width a)
       (mat_at a) (mat_at b) (mat_at c) m m') /\
  (exists m', SubAB a b c m = Some m' /\
     gemm_post true false (Height a) (Width b) (Width a)
       (mat_at a) (mat_at b) (mat_at c) m m').
Proof.
  intros Hpre. unfold MultMatMat, MinusMultAB, AddAB, SubAB. cbv zeta.
  repeat match goal with |- _ /\ _ => split end.
  - destruct (@guarded_AB_call _ _ dispatch_multAB false true a b c m (multAB_ok HL) Hpre)
      as (m' & Hrun & Href).
    exists m'. split; [exact Hrun|]. apply gemm_post_of_ref; [apply Hpre|exact Href].
  - destruct (@guarded_AB_call _ _ dispatch_minusmultAB false false a b c m
                (minusmultAB_ok HL) Hpre) as (m' & Hrun & Href).
    exists m'. split; [exact Hrun|]. apply gemm_post_of_ref; [apply Hpre|exact Href].
  - destruct (@guarded_AB_call _ _ dispatch_addAB true true a b c m (addAB_ok HL) Hpre)
      as (m' & Hrun & Href).
    exists m'. split; [exact Hrun|]. apply gemm_post_of_ref; [apply Hpre|exact Href].
  - destruct (@guarded_AB_call _ _ dispatch_subAB true false a b c m (subAB_ok HL) Hpre)
      as (m' & Hrun & Href).
    exists m'. split; [exact Hrun|]. apply gemm_post_of_ref; [apply Hpre|exact Href].
Qed.

(** X5.  [MultABt] and [AddABt] store C = A*B^t and C += A*B^t cell by
    cell, c(i,j) combined with sum_k a(i,k)*b(j,k), and change nothing
    else, for every width of A: through the table up to 24 and through
    the non-dispatched routine above.  The table and the routine meet
    their contract and C overlaps neither operand. *)
Theorem ABt_stores_product (L : Ngblas) (HL : Gemm_spec L)
    (a b : SliceMatrix RowMajor) (c : BareSliceMatrix RowMajor) m :
  gemm_pre (Height a) (Height b) (Width a) (mat_at a) (transposed (mat_at b)) (bare_at c) ->
  (exists m', MultABt a b c m = Some m' /\
     gemm_post false true (Height a) (Height b) (Width a)
       (mat_at a) (transposed (mat_at b)) (bare_at c) m m') /\
  (exists m', AddABt a b c m = Some m' /\
     gemm_post true true (Height a) (Height b) (Width a)
       (mat_at a) (transposed (mat_at b)) (bare_at c) m m').
Proof.
  intros Hpre. unfold MultABt, AddABt. cbv zeta. split.
  - destruct (@ABt_call _ _ dispatch_abt MultABt_intern false true a b c m
                (abt_ok HL) (MultABt_intern_ok HL) Hpre) as (m' & Hrun & Href).
    exists m'. split; [exact Hrun|]. apply gemm_post_of_ref; [apply Hpre|exact Href].
  - destruct (@ABt_call _ _ dispatch_addabt AddABt_intern true true a b c m
                (addabt_ok HL) (AddABt_intern_ok HL) Hpre) as (m' & Hrun & Href).
    exists m'. split; [exact Hrun|]. apply gemm_post_of_ref; [apply Hpre|exact Href].
Qed.

(** X6.  [MatMat_AtB<ADD,POS> (a, b, c)] computes with A transposed:
    c(i,j) is combined with sum_k a(k,i)*b(k,j), i over the columns of
    [a], and nothing else changes.  Its guard tests the height of [a],
    which is the contraction length here: with no row in [a] or no
    column in [b] the call returns with the memory as it was, for every
    policy.  That agrees with the product except for the overwriting
    policies (ADD false) on a non-empty C with an empty contraction,
    where C keeps its old content; the second part leaves that case
    out.  The tables meet their contract, C overlaps neither operand,
    ring arithmetic. *)
Theorem MatMat_AtB_stores_product (L : Ngblas) (HL : Gemm_spec L) (laws : Arith_laws)
    ADD POS (a b : SliceMatrix RowMajor) (c : BareSliceMatrix RowMajor) m :
  gemm_pre (Width a) (Width b) (Height a) (transposed (mat_at a)) (mat_at b) (bare_at c) ->
  (Height a = 0 \/ Width b = 0 -> MatMat_AtB ADD POS a b c m = Some m) /\
  ((ADD = false -> Height a = 0 -> Width a = 0 \/ Width b = 0) ->
   exists m', MatMat_AtB ADD POS a b c m = Some m' /\
     gemm_post ADD POS (Width a) (Width b) (Height a)
       (transposed (mat_at a)) (mat_at b) (bare_at c) m m').
Proof.
  intros Hpre. unfold MatMat_AtB. cbv zeta. split.
  - intros Hz.
    replace ((Height a =? 0) || (Width b =? 0)) with true; [reflexivity|].
    symmetry. apply orb_true_iff. destruct Hz as [-> | ->]; auto.
  - intros Hcarve. destruct ((Height a =? 0) || (Width b =? 0)) eqn:Hg.
    + exists m. split; [reflexivity|].
      apply gemm_post_of_ref; [apply Hpre|]. intros q. symmetry.
      apply guard_true in Hg as [Hz|Hz]; [|apply gemm_ref_empty; now right].
      destruct ADD.
      * rewrite Hz. apply (gemm_ref_no_terms laws). apply Hpre.
      * apply gemm_ref_empty. now apply Hcarve.
    + rewrite call_slot_lt by (unfold size_dispatch_atb; lia).
      eexists. split; [reflexivity|].
      apply gemm_post_of_ref; [apply Hpre|]. intros q.
      pose proof (atb_ok HL) as Hs.
      exact (Hs ADD POS _ (Height a) (Width a) (Width b) (bare a) (bare b) c m
               (slot_covers_min _ _) Hpre q).
Qed.

(** ** Transposition *)

Lemma TransposeMatrix_frame (a b : SliceMatrix RowMajor) m q :
  (forall i j, i < Height b -> j < Width b -> q <> mat_at b i j) ->
  TransposeMatrix a b m q = m q.
Proof.
  intros Hq. unfold TransposeMatrix. apply sweep_frame.
  intros [i j] Hin. apply in_grid in Hin. now apply Hq.
Qed.

Lemma TransposeMatrix_at (a b : SliceMatrix RowMajor) m i j :
  wf_view b ->
  (forall i j i' j', i < Height b -> j < Width b -> i' < Height b -> j' < Width b ->
     mat_at a j i <> mat_at b i' j') ->
  i < Height b -> j < Width b ->
  TransposeMatrix a b m (mat_at b i j) = m (mat_at a j i).
Proof.
  intros Hwf Hapart Hi Hj. unfold TransposeMatrix.
  apply (sweep_at (fun ij => mat_at b (fst ij) (snd ij))
           (fun ij m' => m' (mat_at (Trans a) (fst ij) (snd ij)))
           (fun ij => m (mat_at a (snd ij) (fst ij)))
           (grid (Height b) (Width b)) m) with (c := (i, j)).
  - apply NoDup_grid_addr. intros. now apply (mat_at_inj b).
  - intros [i0 j0] m' Hin _ Hout. cbn [fst snd]. apply in_grid in Hin.
    rewrite mat_at_Trans. apply Hout.
    intros [i1 j1] Hin1. cbn [fst snd]. apply in_grid in Hin1.
    apply Hapart; intuition.
  - now apply in_grid.
Qed.

(** X7.  [TransposeMatrix (a, b)] with [b] of the transposed shape,
    both views well formed and over disjoint cells: afterwards b(i,j)
    holds what a(j,i) held, nothing outside [b] has changed, and
    transposing [b] back into [a] changes nothing at all: [a] already
    holds the transpose of [b]. *)
Theorem TransposeMatrix_transposes_and_inverts (a b : SliceMatrix RowMajor) m :
  Height b = Width a -> Width b = Height a ->
  wf_view a -> wf_view b ->
  (forall i j i' j', i < Height a -> j < Width a -> i' < Height b -> j' < Width b ->
     mat_at a i j <> mat_at b i' j') ->
  (forall i j, i < Height b -> j < Width b ->
     TransposeMatrix a b m (mat_at b i j) = m (mat_at a j i)) /\
  (forall q, (forall i j, i < Height b -> j < Width b -> q <> mat_at b i j) ->
     TransposeMatrix a b m q = m q) /\
  (forall q, TransposeMatrix b a (TransposeMatrix a b m) q = TransposeMatrix a b m q).
Proof.
  intros Hh Hw Hwfa Hwfb Hapart.
  assert (Hat : forall i j, i < Height b -> j < Width b ->
            TransposeMatrix a b m (mat_at b i j) = m (mat_at a j i)).
  { intros i j Hi Hj. apply TransposeMatrix_at; trivial.
    intros i0 j0 i' j' Hi0 Hj0 Hi' Hj'. apply Hapart; lia. }
  split; [exact Hat|]. split; [intros q; apply TransposeMatrix_frame|].
  intros q.
  destruct (cell_dec (fun ij => mat_at a (fst ij) (snd ij)) (grid (Height a) (Width a)) q)
    as [([i j] & Hin & ->)|Hout].
  - apply in_grid in Hin as [Hi Hj]. cbn [fst snd].
    rewrite TransposeMatrix_at; trivial.
    + rewrite Hat by lia. symmetry. apply TransposeMatrix_frame.
      intros i' j' Hi' Hj'. now apply Hapart.
    + intros i0 j0 i' j' Hi0 Hj0 Hi' Hj' Heq. symmetry in Heq. revert Heq.
      apply Hapart; lia.
  - apply TransposeMatrix_frame. intros i j Hi Hj. apply (Hout (i, j)). now apply in_grid.
Qed.

(** ** Diagonal-weighted update *)

Lemma SubAtDB_loop_spec : SubAtDB_spec SubAtDB_loop.
Proof.
  intros a diag b c m (Hinj & _). unfold SubAtDB_loop. split.
  - intros i j Hi Hj.
    apply (sweep_at (fun ij => mat_at c (fst ij) (snd ij)) _
             (fun ij => sub (m (mat_at c (fst ij) (snd ij)))
                (sum_to (Height a) (fun p =>
                   mul (mul (m (mat_at a p (fst ij))) (m (elem diag p)))
                       (m (mat_at b p (snd ij))))))
             (grid (Height c) (Width c)) m) with (c := (i, j)).
    + now apply NoDup_grid_addr.
    + reflexivity.
    + now apply in_grid.
  - intros q Hq. apply sweep_frame. intros [i j] Hin. apply in_grid in Hin.
    now apply Hq.
Qed.

Lemma SubAtDB_pre_Trans (a : SliceMatrix ColMajor) diag (b c : SliceMatrix ColMajor) k :
  SubAtDB_pre a diag b c k -> SubAtDB_pre (Trans b) diag (Trans a) (Trans c) k.
Proof.
  intros (Hinj & Ha & Hb & Hd). split; [|split; [|split]].
  - intros j i j' i' Hj Hi Hj' Hi'. rewrite !mat_at_Trans. intros Heq.
    destruct (Hinj i j i' j'); auto.
  - intros j i p q Hj Hi Hp Hq. rewrite !mat_at_Trans. now apply Hb.
  - intros j i p q Hj Hi Hp Hq. rewrite !mat_at_Trans. now apply Ha.
  - intros j i p Hj Hi Hp. rewrite mat_at_Trans. now apply Hd.
Qed.

(** X8.  The column-major [SubADBt (a, diag, b, c)] is
    [SubAtDB (Trans(b), diag, Trans(a), Trans(c))], and with a [SubAtDB]
    that computes C -= A^t D B this is C -= A D B^t: c(i,j) loses
    sum_p a(i,p)*diag[p]*b(j,p), p over the columns of [b], and nothing
    outside C changes.  Products commute and associate; C is well
    laid out and overlaps no operand. *)
Theorem SubADBt_ColMajor_subtracts_ADBt (SubAtDB : psubatdb) (HS : SubAtDB_spec SubAtDB)
    (mul_commutes : forall u v : T, mul u v = mul v u)
    (mul_associates : forall u v w : T, mul (mul u v) w = mul u (mul v w))
    (a : SliceMatrix ColMajor) (diag : SliceVector) (b c : SliceMatrix ColMajor) m :
  SubAtDB_pre a diag b c (Width b) ->
  (forall i j, i < Height c -> j < Width c ->
     SubADBt_ColMajor SubAtDB a diag b c m (mat_at c i j)
     = sub (m (mat_at c i j))
         (sum_to (Width b) (fun p =>
            mul (mul (m (mat_at a i p)) (m (elem diag p))) (m (mat_at b j p))))) /\
  (forall q, (forall i j, i < Height c -> j < Width c -> q <> mat_at c i j) ->
     SubADBt_ColMajor SubAtDB a diag b c m q = m q).
Proof.
  intros Hpre. unfold SubADBt_ColMajor.
  destruct (HS (Trans b) diag (Trans a) (Trans c) m (SubAtDB_pre_Trans Hpre))
    as [Hat Hframe].
  split.
  - intros i j Hi Hj.
    assert (E : SubAtDB (Trans b) diag (Trans a) (Trans c) m (mat_at c i j)
                = sub (m (mat_at c i j))
                    (sum_to (Width b) (fun p =>
                       mul (mul (m (mat_at b j p)) (m (elem diag p))) (m (mat_at a i p)))))
      by exact (Hat j i Hj Hi).
    rewrite E. f_equal. apply sum_to_ext. intros p _.
    rewrite (mul_commutes (mul (m (mat_at b j p)) (m (elem diag p)))).
    rewrite (mul_commutes (m (mat_at b j p))). symmetry. apply mul_associates.
  - intros q Hq. apply Hframe. intros j i Hj Hi.
    change (mat_at (Trans c) j i) with (mat_at c i j). now apply Hq.
Qed.

(** ** Vector primitives once more *)

Lemma sweep_self {I} (cells : list I) (addr : I -> nat) m m0 :
  (forall q, m q = m0 q) ->
  forall q, sweep cells addr (fun c m' => m' (addr c)) m q = m0 q.
Proof.
  revert m. induction cells as [|c cells IH]; intros m Hm q; [apply Hm|].
  rewrite sweep_cons. apply IH. intros p. unfold upd.
  destruct (Nat.eqb_spec p (addr c)) as [->|_]; apply Hm.
Qed.

(** X9.  Copying a vector onto itself, [CopyVector (v, v)], leaves every
    address as it was, whatever the stride of the view (also when its
    elements alias one another). *)
Theorem CopyVector_onto_itself {V} `{VectorView V} (v : V) m :
  forall q, exec (CopyVector v v) m q = m q.
Proof.
  intros q. unfold exec. rewrite CopyVector_run. cbn [fst snd].
  now apply sweep_self.
Qed.

Section ScaledAdd.

Context {V : Type} {VV : VectorView V}.
Variables (src dest : V).
Hypothesis dest_distinct :
  forall i j, i < Size dest -> j < Size dest -> elem dest i = elem dest j -> i = j.
Hypothesis src_apart :
  forall i j, i < Size dest -> j < Size dest -> elem src i <> elem dest j.

Lemma AddVector_frame alpha m q :
  (forall i, i < Size dest -> q <> elem dest i) ->
  exec (AddVector alpha src dest) m q = m q.
Proof.
  intros Hq. unfold exec. rewrite AddVector_run. cbn [fst snd].
  apply sweep_frame. intros i Hi. apply in_seq in Hi. apply Hq. lia.
Qed.

Lemma AddVector_at alpha m i :
  i < Size dest ->
  exec (AddVector alpha src dest) m (elem dest i)
  = add (m (elem dest i)) (mul alpha (m (elem src i))).
Proof.
  intros Hi. unfold exec. rewrite AddVector_run. cbn [fst snd].
  apply (sweep_at (elem dest) _
           (fun i => add (m (elem dest i)) (mul alpha (m (elem src i))))
           (seq 0 (Size dest)) m).
  - now apply NoDup_range_addr.
  - intros c m' Hc Hown Hout. apply in_seq in Hc. rewrite Hown. do 2 f_equal.
    apply Hout. intros c' Hc'. apply in_seq in Hc'. apply src_apart; lia.
  - apply in_seq. lia.
Qed.

End ScaledAdd.

(** X10.  A scaled add is undone by the scaled add with the opposite
    factor: after [AddVector (alpha, src, dest)] and then
    [AddVector (-alpha, src, dest)] every address holds what it held
    before.  The elements of [dest] are distinct and none of them is an
    element of [src] that is read; (-a)*s = -(a*s) and
    (d + t) + (-t) = d. *)
Theorem AddVector_opposite_restores {V} `{VectorView V}
    (mul_opp_left : forall u v : T, mul (opp u) v = opp (mul u v))
    (add_opp_cancel : forall u v : T, add (add u v) (opp v) = u)
    (alpha : T) (src dest : V) m :
  (forall i j, i < Size dest -> j < Size dest -> elem dest i = elem dest j -> i = j) ->
  (forall i j, i < Size dest -> j < Size dest -> elem src i <> elem dest j) ->
  forall q,
    exec (AddVector (opp alpha) src dest) (exec (AddVector alpha src dest) m) q = m q.
Proof.
  intros Hinj Hsrc q.
  destruct (cell_dec (elem dest) (seq 0 (Size dest)) q) as [(i & Hi & ->)|Hout].
  - apply in_seq in Hi. rewrite (AddVector_at src dest Hinj Hsrc) by lia.
    rewrite (AddVector_at src dest Hinj Hsrc) by lia.
    rewrite (AddVector_frame src dest alpha m (q := elem src i)).
    + now rewrite mul_opp_left, add_opp_cancel.
    + intros j Hj. apply Hsrc; lia.
  - assert (Hq : forall i, i < Size dest -> q <> elem dest i).
    { intros i Hi. apply Hout. apply in_seq. lia. }
    now rewrite !AddVector_frame.
Qed.

(** ** Scaling rows and columns together *)

Section RowScaling.

Variable ord : ORDERING.
Variable a : SliceMatrix ord.
Variable d : BareSliceVector.
Hypothesis a_wf : wf_view a.
Hypothesis d_apart : forall i j k,
  i < Height a -> j < Width a -> k < Height a -> mat_at a i j <> bv_elem d k.



End RowScaling.


End EntryPointProperties.

(** * Instances *)

Lemma Z_Arith_laws : Arith_laws (T := Z).
Proof.
  split; cbn [zero one add sub mul opp Z_arith]; intros; lia.
Qed.

(** A 1 x 30 matrix at address 0 (for the transposed products the same
    cells read as 30 x 1), x of length 30 at 40, y of length 1 at 80: the length of x is beyond every matrix-vector table. *)
Lemma dispatched_matvec_matches_reference_witness :
  let a := mkBare RowMajor 30 0 in
  let x := mkFlat 30 40 in
  let y := mkFlat 1 80 in
  let m : Mem := fun p => Z.of_nat p in
  (exists m', MultMatVec (L := unrolled) a x y m = Some m' /\
     m' = dispatch_matvec (Ngblas := unrolled) 25 a x y m /\
     forall q, m' q = gemv_ref None (bare_at a) x y m q) /\
  (exists m', MultAddMatVec (L := unrolled) 2%Z a x y m = Some m' /\
     m' = dispatch_addmatvec (Ngblas := unrolled) 24 2%Z a x y m /\
     forall q, m' q = gemv_ref (Some 2%Z) (bare_at a) x y m q) /\
  (exists m', MultMatTransVec (L := unrolled) a x y m = Some m' /\
     m' = dispatch_mattransvec (Ngblas := unrolled) 12 a x y m /\
     forall q, m' q = gemv_ref None (transposed (bare_at a)) x y m q) /\
  (exists m', MultAddMatTransVec (L := unrolled) 2%Z a x y m = Some m' /\
     m' = dispatch_addmattransvec (Ngblas := unrolled) 12 2%Z a x y m /\
     forall q, m' q = gemv_ref (Some 2%Z) (transposed (bare_at a)) x y m q).
Proof.
  intros a x y m.
  destruct (dispatched_matvec_matches_reference unrolled_Gemv_spec 2%Z a x y m)
    as (H1 & H2 & H3 & H4).
  split; [apply H1|split; [apply H2|split; [apply H3|apply H4]]];
    unfold gemv_pre, transposed, bare_at;
    cbv [Size elem FlatVector_view fv_size fv_data bData bDist a x y];
    intros; split; intros; lia.
Defined.

Lemma indirect_dispatch_on_y_witness :
  let a := mkBare RowMajor 3 0 in
  let x := mkFlat 30 40 in
  let y := mkFlat 3 80 in
  let m : Mem := fun p => Z.of_nat p in
  exists m', MultAddMatTransVecIndirect (L := unrolled) 2%Z a x y [2; 0; 2] m = Some m' /\
    forall q, m' q = addmattransvecI_ref 2%Z a x y [2; 0; 2] m q.
Proof.
  intros a x y m.
  apply (indirect_dispatch_on_y unrolled_Indirect_spec 2%Z a x y [2; 0; 2] m).
Defined.

(** C6 as worded fails: with x of length 30 and y of length 3 the code
    runs slot 3 of the table (mark 3 at address 0), where a dispatch on
    the length of the contracted vector x runs the non-dispatched
    routine (mark 99). *)
Lemma indirect_dispatch_not_on_contracted_length :
  let a := mkBare RowMajor 3 0 in
  let x := mkFlat 30 40 in
  let y := mkFlat 3 80 in
  let m : Mem := fun _ => 0%Z in
  exists m1 m2,
    MultAddMatTransVecIndirect (L := tagging) 1%Z a x y [0; 1; 2] m = Some m1 /\
    MultAddMatTransVecIndirect_by_contracted (L := tagging) 1%Z a x y [0; 1; 2] m = Some m2 /\
    m1 0 = 3%Z /\ m2 0 = 99%Z /\ m1 0 <> m2 0.
Proof.
  cbv zeta. do 2 eexists. split; [reflexivity|]. split; [reflexivity|].
  split; [reflexivity|]. split; [reflexivity|]. discriminate.
Qed.

Lemma gemm_zero_size_behaviour_witness :
  (let a := mkMat RowMajor 0 3 3 0 in
   let b := mkMat RowMajor 3 2 2 10 in
   let c := mkMat RowMajor 0 2 2 20 in
   let m : Mem := fun p => Z.of_nat p in
   MultMatMat (L := unrolled) a b c m = Some m /\
   MinusMultAB (L := unrolled) a b c m = Some m /\
   AddAB (L := unrolled) a b c m = Some m /\
   SubAB (L := unrolled) a b c m = Some m) /\
  (let a := mkMat RowMajor 1 0 1 0 in
   let b := mkMat RowMajor 0 1 1 0 in
   let c := mkMat RowMajor 1 1 1 5 in
   let m : Mem := fun _ => 7%Z in
   (exists m', MultMatMat (L := unrolled) a b c m = Some m' /\
      (forall i j, i < 1 -> j < 1 -> m' (mat_at c i j) = 0%Z) /\
      (forall q, (forall i j, i < 1 -> j < 1 -> q <> mat_at c i j) -> m' q = m q)) /\
   (exists m', AddAB (L := unrolled) a b c m = Some m' /\ forall q, m' q = m q)).
Proof.
  split.
  - intros a b c m. apply (proj1 (gemm_zero_size_behaviour unrolled a b c m)).
    left. reflexivity.
  - intros a b c m.
    destruct (proj2 (gemm_zero_size_behaviour unrolled a b c m)) as [_ H].
    + discriminate.
    + discriminate.
    + reflexivity.
    + destruct (H unrolled_Gemm_spec Z_Arith_laws) as (H1 & _ & H3 & _).
      * unfold gemm_pre, mat_at, bare_at, bare;
          cbv [Height Width Data Dist bData bDist a b c].
        split; [|split]; intros; lia.
      * split; [exact H1|exact H3].
Defined.

(** C2 as worded fails: A of width zero (1 x 0) times B of height zero
    (0 x 1) is not a no-op of [MultMatMat].  Whatever the library, the
    call does not return at once but runs slot 0 of the table; and with
    every library that meets the contract the one element of C, 7
    before the call, is 0 after it.  One such library exists. *)
Lemma MultMatMat_zero_width_overwrites :
  let a := mkMat RowMajor 1 0 1 0 in
  let b := mkMat RowMajor 0 1 1 0 in
  let c := mkMat RowMajor 1 1 1 5 in
  let m : Mem := fun _ => 7%Z in
  (Width a = 0 /\ Height b = 0) /\
  (forall L : Ngblas,
     MultMatMat (L := L) a b c m
     = Some (dispatch_multAB (Ngblas := L) 0 1 0 1 (bare a) (bare b) (bare c) m)) /\
  (forall L : Ngblas, Gemm_spec L ->
     exists m', MultMatMat (L := L) a b c m = Some m' /\
       m' (mat_at c 0 0) = 0%Z /\ m (mat_at c 0 0) = 7%Z /\
       m' (mat_at c 0 0) <> m (mat_at c 0 0)) /\
  Gemm_spec (unrolled (T := Z)).
Proof.
  intros a b c m. split; [split; reflexivity|]. split; [reflexivity|].
  split; [|apply unrolled_Gemm_spec].
  intros L HL.
  destruct (@AB_zero_contraction Z Z_arith dispatch_multAB false true a b c m
              (multAB_ok HL) eq_refl) as (m' & Hrun & Hval & _).
  - unfold gemm_pre, mat_at, bare_at, bare;
      cbv [Height Width Data Dist bData bDist a b c].
    split; [|split]; intros; lia.
  - exists m'. split; [exact Hrun|].
    assert (E : m' (mat_at c 0 0) = 0%Z) by (apply Hval; cbn; lia).
    split; [exact E|]. split; [reflexivity|]. rewrite E. discriminate.
Qed.

(** A 2 x 2 product with a row-major left operand, a column-major right
    operand and a column-major result, C -= A*B. *)
Lemma NgGEMM_computes_product_witness :
  let a := mkMat RowMajor 2 2 2 0 in
  let b := mkMat ColMajor 2 2 2 10 in
  let c := mkMat ColMajor 2 2 2 20 in
  let m : Mem := fun p => Z.of_nat p in
  exists m', NgGEMM (L := unrolled) true false a b c m = Some m' /\
    forall q, m' q = gemm_ref true false 2 2 2 (mat_at a) (mat_at b) (mat_at c) m q.
Proof.
  intros a b c m.
  apply (proj1 (NgGEMM_computes_product unrolled_Gemm_spec Z_Arith_laws)
           true false RowMajor ColMajor ColMajor a b c m);
    try reflexivity; try discriminate.
  unfold gemm_pre, mat_at, bare_at; cbn.
  split; [|split]; intros; lia.
Defined.

(** C5 as worded fails twice.  With two column-major operands and a
    row-major result no routine of the library is reached: under the
    library whose routines do nothing the product 2*3 is still stored,
    by the unspecialised template.  And with ADD false, a column-major
    A of width zero and a row-major B, the call returns at once and
    leaves the 7 in C where C = A*B is zero. *)
Lemma NgGEMM_generic_fallback_and_stale_result :
  (let a := mkMat ColMajor 1 1 1 0 in
   let b := mkMat ColMajor 1 1 1 1 in
   let c := mkMat RowMajor 1 1 1 2 in
   let m : Mem := fun p => match p with 0 => 2%Z | 1 => 3%Z | _ => 0%Z end in
   NgGEMM (L := idle) false true a b c m = Some (NgGEMM_generic false true a b c m) /\
   NgGEMM_generic false true a b c m (mat_at c 0 0) = 6%Z /\
   m (mat_at c 0 0) = 0%Z) /\
  (let a := mkMat ColMajor 1 0 1 0 in
   let b := mkMat RowMajor 0 1 1 0 in
   let c := mkMat RowMajor 1 1 1 5 in
   let m : Mem := fun _ => 7%Z in
   NgGEMM (L := unrolled) false true a b c m = Some m /\
   gemm_ref false true (Height a) (Width b) (Width a) (mat_at a) (mat_at b) (mat_at c) m
     (mat_at c 0 0) = 0%Z /\
   m (mat_at c 0 0) = 7%Z).
Proof.
  cbv zeta. repeat split.
Qed.

Lemma Qc_two_nonzero : (1 + 1)%Qc <> 0%Qc.
Proof. intros E. apply (f_equal this) in E. discriminate E. Qed.

(** A 2 x 3 row-major matrix at address 0, d = (2, 2) at 10 and its
    reciprocals at 20, over the rationals. *)
Lemma ScaleRows_is_ScaleCols_of_Trans_witness :
  let a := mkMat RowMajor 2 3 3 0 in
  let d := mkBareVec 1 10 in
  let dinv := mkBareVec 1 20 in
  let m : Mem := fun p => if p <? 20 then (1 + 1)%Qc else (/ (1 + 1))%Qc in
  ScaleRows a d m = ScaleCols (Trans a) d m /\
  (forall i j, i < 2 -> j < 3 ->
     ScaleRows a d m (mat_at a i j) = mul (m (mat_at a i j)) (m (bv_elem d i))) /\
  (forall q, (forall i j, i < 2 -> j < 3 -> q <> mat_at a i j) ->
     ScaleRows a d m q = m q) /\
  (forall q, ScaleCols (Trans a) dinv (ScaleRows a d m) q = m q).
Proof.
  intros a d dinv m.
  apply (ScaleRows_is_ScaleCols_of_Trans (AT := Qc_arith) (R := Qc_recip)
           (fun x y z => eq_sym (Qcmult_assoc x y z)) Qcmult_1_r Qcmult_inv_r
           a d dinv m).
  - cbn. lia.
  - unfold mat_at, bare_at, bv_elem; cbn. intros; lia.
  - intros k Hk. cbn in Hk.
    destruct k as [|[|k]]; [exact Qc_two_nonzero|exact Qc_two_nonzero|lia].
  - intros k Hk. cbn in Hk.
    destruct k as [|[|k]]; [reflexivity|reflexivity|lia].
Defined.

Lemma dispatch_index_in_bounds_witness :
  let L := unrolled (T := Z) in
  let a0 := mkMat RowMajor 0 3 3 0 in
  let a := mkMat RowMajor 1 20 20 0 in
  let b := mkMat RowMajor 20 1 1 20 in
  let c := mkMat RowMajor 1 1 1 40 in
  let m : Mem := fun _ => 1%Z in
  MultMatMat (L := L) a0 b c m = Some m /\
  clamped_call size_dispatch_multAB (dispatch_multAB (Ngblas := L)) 20
    (fun f => f 1 20 1 (bare a) (bare b) (bare c)) (MultMatMat (L := L) a b c).
Proof.
  intros L a0 a b c m.
  destruct (dispatch_index_in_bounds L) as (_ & _ & _ & _ & H & _).
  split.
  - apply (proj1 (H a0 b c)). left. reflexivity.
  - apply (proj2 (H a b c)); intro E; discriminate E.
Defined.

Lemma Z_ring_theory : ring_theory (zero (T := Z)) one add mul sub opp (@eq Z).
Proof.
  constructor; cbv [zero one add mul sub opp Z_arith]; intros.
  - apply Z.add_0_l.
  - apply Z.add_comm.
  - apply Z.add_assoc.
  - apply Z.mul_1_l.
  - apply Z.mul_comm.
  - apply Z.mul_assoc.
  - apply Z.mul_add_distr_r.
  - reflexivity.
  - apply Z.add_opp_diag_r.
Qed.

Lemma CalcSchurComplement_kept_block_witness :
  let A := [[7; 1; 2]; [1; 2; 1]; [2; 1; 1]]%Z in
  let used := [false; true; true] in
  let S := CalcSchurComplement adjugate2 A used in
  let xk := fun _ : nat => 1%Z in
  let xe := fun p : nat => nth p [1; -3]%Z 0%Z in
  inverts adjugate2 (sub_block A [1; 2] [1; 2]) /\
  S = [[2%Z]] /\
  (7 * xk 0%nat + (1 * xe 0%nat + 2 * xe 1%nat) = entry S 0 0 * xk 0%nat)%Z /\
  CalcSchurComplement adjugate2 [[2; 1]; [1; 1]]%Z [false; false] = [[2; 1]; [1; 1]]%Z /\
  CalcSchurComplement adjugate2 [[2; 1]; [1; 1]]%Z [true; true] = [].
Proof.
  intros A used S xk xe.
  assert (Hinv : inverts adjugate2 (sub_block A [1; 2] [1; 2])).
  { intros p q Hp Hq. cbn in Hp, Hq.
    destruct p as [|[|p]]; [| |lia]; (destruct q as [|[|q]]; [| |lia]); reflexivity. }
  destruct (CalcSchurComplement_kept_block (AT := Z_arith) Z_ring_theory adjugate2 A used)
    as (_ & Helim & _ & _).
  destruct (CalcSchurComplement_kept_block (AT := Z_arith) Z_ring_theory adjugate2
              [[2; 1]; [1; 1]]%Z [false; false]) as (_ & _ & Hnone & _).
  destruct (CalcSchurComplement_kept_block (AT := Z_arith) Z_ring_theory adjugate2
              [[2; 1]; [1; 1]]%Z [true; true]) as (_ & _ & _ & Hall).
  split; [exact Hinv|]. split; [reflexivity|]. split; [|split].
  - refine (Helim Hinv xk xe _ 0 (Nat.lt_0_succ 0)).
    intros q Hq. cbn in Hq.
    destruct q as [|[|q]]; [reflexivity|reflexivity|lia].
  - apply Hnone; [reflexivity| |reflexivity]. repeat constructor.
  - apply Hall. reflexivity.
Defined.

Lemma MultiVectorAdd_identity_adds_witness :
  let x := [[1; 2; 3]; [4; 5; 6]]%Z in
  let z := [[0; 0; 0]; [0; 0; 0]]%Z in
  MultiVectorAdd 3 z x (identity 2) = x.
Proof.
  intros x z.
  apply (MultiVectorAdd_identity_adds Z_Arith_laws (n := 3) (x := x) (z := z));
    repeat constructor.
Defined.

(** [MultiVectorAdd] accumulates: the inner products of x = (1,2) with
    itself are computed (ip = 5), and updating x by itself with the
    identity as coefficient matrix gives (2,4). *)
Lemma MultiVectorAdd_identity_doubles :
  let x := [[1; 2]]%Z in
  PairwiseInnerProduct 2 x x = [[5%Z]] /\
  MultiVectorAdd 2 x x (identity 1) = [[2; 4]]%Z /\
  MultiVectorAdd 2 x x (identity 1) <> x.
Proof.
  cbv zeta. split; [reflexivity|]. split; [reflexivity|]. discriminate.
Qed.

(** A source of five elements at 0 and a destination of three at 10. *)
Lemma vector_primitives_range_over_dest_witness :
  let src := mkFlat 5 0 in
  let dest := mkFlat 3 10 in
  let m : Mem := fun p => Z.of_nat p in
  trace (CopyVector src dest) m = [Rd 0; Wr 10; Rd 1; Wr 11; Rd 2; Wr 12] /\
  forall i, i < 3 ->
    exec (CopyVector src dest) m (elem dest i) = m (elem src i) /\
    exec (AddVector 2%Z src dest) m (elem dest i)
    = add (m (elem dest i)) (mul 2%Z (m (elem src i))).
Proof.
  intros src dest m.
  destruct (vector_primitives_range_over_dest 2%Z src dest m)
    as (Htr & _ & _ & Hval & _).
  split; [exact Htr|].
  apply Hval; cbn; intros; lia.
Defined.

(** ** Instances of the further properties *)

Lemma Z_sub_opp (u v : Z) : sub u v = add u (opp v).
Proof. cbn. lia. Qed.

Lemma Z_mul_associates (u v w : Z) : mul (mul u v) w = mul u (mul v w).
Proof. cbn. lia. Qed.

Lemma Z_mul_commutes (u v : Z) : mul u v = mul v u.
Proof. cbn. lia. Qed.

Lemma Z_mul_opp_left (u v : Z) : mul (opp u) v = opp (mul u v).
Proof. cbn. lia. Qed.

Lemma Z_add_opp_cancel (u v : Z) : add (add u v) (opp v) = u.
Proof. cbn. lia. Qed.

(** A column-major 2 x 3 matrix, y -= A x. *)
Lemma NgGEMV_stores_product_witness :
  let a := mkMat ColMajor 2 3 2 0 in
  let x := mkFlat 3 40 in
  let y := mkFlat 2 80 in
  let m : Mem := fun p => Z.of_nat p in
  exists m', NgGEMV (L := unrolled) true false a x y m = Some m' /\
    gemv_post true false 3 (mat_at a) x y m m'.
Proof.
  intros a x y m.
  apply (NgGEMV_stores_product unrolled_Gemv_spec Z_Arith_laws Z_sub_opp
           true false (a := a) (x := x) (y := y) m).
  - reflexivity.
  - unfold gemv_pre, mat_at, bare_at, bare;
      cbv [Size elem FlatVector_view fv_size fv_data bData bDist Data Dist a x y].
    intros; split; intros; lia.
Defined.

Lemma MultAddMatVec_ColMajor_adds_product_witness :
  let a := mkBare ColMajor 2 0 in
  let x := mkFlat 30 40 in
  let y := mkFlat 1 90 in
  let m : Mem := fun p => Z.of_nat p in
  exists m', MultAddMatVec_ColMajor (L := unrolled) 2%Z a x y m = Some m' /\
    m' = dispatch_addmattransvec (Ngblas := unrolled) 12 2%Z (bTrans a) x y m /\
    (forall i, i < 1 ->
       m' (elem y i)
       = add (m (elem y i))
           (mul 2%Z (sum_to 30 (fun j => mul (m (bare_at a i j)) (m (elem x j)))))) /\
    (forall q, (forall i, i < 1 -> q <> elem y i) -> m' q = m q).
Proof.
  intros a x y m.
  apply (MultAddMatVec_ColMajor_adds_product unrolled_Gemv_spec 2%Z (a := a) (x := x) (y := y) m).
  unfold gemv_pre, bare_at;
    cbv [Size elem FlatVector_view fv_size fv_data bData bDist a x y].
  intros; split; intros; lia.
Defined.

(** A 1 x 0 by 0 x 1 product: the contraction is empty and C is 1 x 1. *)
Lemma AB_family_stores_product_witness :
  let a := mkMat RowMajor 1 0 1 0 in
  let b := mkMat RowMajor 0 1 1 0 in
  let c := mkMat RowMajor 1 1 1 5 in
  let m : Mem := fun _ => 7%Z in
  exists m', MultMatMat (L := unrolled) a b c m = Some m' /\
    gemm_post false true 1 1 0 (mat_at a) (mat_at b) (mat_at c) m m'.
Proof.
  intros a b c m.
  apply (proj1 (AB_family_stores_product unrolled_Gemm_spec (a := a) (b := b) (c := c) m
                  ltac:(unfold gemm_pre, mat_at, bare_at, bare;
                        cbv [Height Width Data Dist bData bDist a b c];
                        split; [|split]; intros; lia))).
Defined.

Lemma ABt_stores_product_witness :
  let a := mkMat RowMajor 2 2 2 0 in
  let b := mkMat RowMajor 2 2 2 10 in
  let c := mkBare RowMajor 2 20 in
  let m : Mem := fun p => Z.of_nat p in
  exists m', AddABt (L := unrolled) a b c m = Some m' /\
    gemm_post true true 2 2 2 (mat_at a) (transposed (mat_at b)) (bare_at c) m m'.
Proof.
  intros a b c m.
  apply (proj2 (ABt_stores_product unrolled_Gemm_spec (a := a) (b := b) (c := c) m
                  ltac:(unfold gemm_pre, transposed, mat_at, bare_at, bare;
                        cbv [Height Width Data Dist bData bDist a b c];
                        split; [|split]; intros; lia))).
Defined.

Lemma MatMat_AtB_stores_product_witness :
  let a := mkMat RowMajor 2 2 2 0 in
  let b := mkMat RowMajor 2 2 2 10 in
  let c := mkBare RowMajor 2 20 in
  let m : Mem := fun p => Z.of_nat p in
  exists m', MatMat_AtB (L := unrolled) false true a b c m = Some m' /\
    gemm_post false true 2 2 2 (transposed (mat_at a)) (mat_at b) (bare_at c) m m'.
Proof.
  intros a b c m.
  apply (proj2 (MatMat_AtB_stores_product unrolled_Gemm_spec Z_Arith_laws
                  false true (a := a) (b := b) (c := c) m
                  ltac:(unfold gemm_pre, transposed, mat_at, bare_at, bare;
                        cbv [Height Width Data Dist bData bDist a b c];
                        split; [|split]; intros; lia))).
  intros _ Hz. discriminate Hz.
Defined.

Lemma TransposeMatrix_transposes_and_inverts_witness :
  let a := mkMat RowMajor 2 3 3 0 in
  let b := mkMat RowMajor 3 2 2 10 in
  let m : Mem := fun p => Z.of_nat p in
  (forall i j, i < 3 -> j < 2 -> TransposeMatrix a b m (mat_at b i j) = m (mat_at a j i)) /\
  (forall q, (forall i j, i < 3 -> j < 2 -> q <> mat_at b i j) ->
     TransposeMatrix a b m q = m q) /\
  (forall q, TransposeMatrix b a (TransposeMatrix a b m) q = TransposeMatrix a b m q).
Proof.
  intros a b m.
  apply (TransposeMatrix_transposes_and_inverts (a := a) (b := b) m);
    try reflexivity; unfold wf_view, mat_at, bare_at, bare;
    cbv [Height Width Data Dist bData bDist a b]; intros; lia.
Defined.

Lemma SubADBt_ColMajor_subtracts_ADBt_witness :
  let a := mkMat ColMajor 2 2 2 0 in
  let b := mkMat ColMajor 2 2 2 10 in
  let c := mkMat ColMajor 2 2 2 20 in
  let diag := mkSlice 2 1 30 in
  let m : Mem := fun p => Z.of_nat p in
  (forall i j, i < 2 -> j < 2 ->
     SubADBt_ColMajor SubAtDB_loop a diag b c m (mat_at c i j)
     = sub (m (mat_at c i j))
         (sum_to 2 (fun p =>
            mul (mul (m (mat_at a i p)) (m (elem diag p))) (m (mat_at b j p))))) /\
  (forall q, (forall i j, i < 2 -> j < 2 -> q <> mat_at c i j) ->
     SubADBt_ColMajor SubAtDB_loop a diag b c m q = m q).
Proof.
  intros a b c diag m.
  apply (SubADBt_ColMajor_subtracts_ADBt SubAtDB_loop_spec Z_mul_commutes Z_mul_associates
           (a := a) (diag := diag) (b := b) (c := c) m).
  unfold SubAtDB_pre, mat_at, bare_at, bare;
    cbv [Height Width Data Dist bData bDist elem SliceVector_view sv_data sv_dist
         a b c diag].
  split; [|split; [|split]]; intros; lia.
Defined.

Lemma AddVector_opposite_restores_witness :
  let src := mkFlat 3 0 in
  let dest := mkFlat 3 10 in
  let m : Mem := fun p => Z.of_nat p in
  exec (AddVector (opp 2%Z) src dest) (exec (AddVector 2%Z src dest) m) 11 = m 11 /\
  exec (AddVector (opp 2%Z) src dest) (exec (AddVector 2%Z src dest) m) 1 = m 1.
Proof.
  intros src dest m.
  split;
    apply (AddVector_opposite_restores Z_mul_opp_left Z_add_opp_cancel 2%Z src dest m);
    cbv [Size elem FlatVector_view fv_size fv_data src dest]; intros; lia.
Defined.

